(** * gemini-translate: a resumable batch translation pipeline

    A shallow embedding of [gemini-translate.py] and the properties of its
    text normaliser, its translator wrapper and its batch loop.

    Conventions of the embedding.
    - A Python [str] is a list of Unicode code points ([N]).  Whitespace is
      the set CPython's [str.split()] and [str.strip()] use.
    - A table cell is a [str]; pandas' missing values are outside the model,
      and the CSV writer and reader are taken to round-trip cells.
    - The process is a state-and-exit monad over the local variables of
      [main], the output file, the standard output and an instrumentation
      trace of the effects performed (rows read, remote calls, appends).
    - The remote service and the file system failures are oracles of the
      environment, keyed by the row index at which they are consulted; one
      run consults each index at most once. *)

From Stdlib Require Import ZArith NArith Lia.
From stdpp Require Import base decidable countable strings gmap sets list.

Local Open Scope Z_scope.

(** ** Python strings *)

Module PyStr.

Definition char : Type := N.
Definition str : Type := list N.

(** An ASCII literal of the source as a [str]. *)
Definition lit (s : String.string) : str :=
  List.map Ascii.N_of_ascii (String.list_ascii_of_string s).
Arguments lit s%_string.

Definition CR : char := 13%N.
Definition LF : char := 10%N.
Definition SP : char := 32%N.
Definition QUOTE : char := 34%N.

(** [Py_UNICODE_ISSPACE]: the code points [str.split()] and [str.strip()]
    treat as whitespace. *)
Definition isspace (c : char) : bool :=
  ((9 <=? c) && (c <=? 13) || (28 <=? c) && (c <=? 32)
   || (c =? 133) || (c =? 160) || (c =? 5760)
   || (8192 <=? c) && (c <=? 8202)
   || (c =? 8232) || (c =? 8233) || (c =? 8239) || (c =? 8287)
   || (c =? 12288))%N.

(** [s.replace(old, new)] for one-character [old] and [new]. *)
Definition replace (old new : char) (s : str) : str :=
  List.map (fun c => if (c =? old)%N then new else c) s.

(** [s.split()]: the maximal runs of non-whitespace, in order.  [cur] is the
    run being scanned, most recent character first. *)
Fixpoint split_from (cur : str) (s : str) : list str :=
  match s with
  | [] => match cur with [] => [] | _ :: _ => [rev cur] end
  | c :: s' =>
      if isspace c
      then match cur with
           | [] => split_from [] s'
           | _ :: _ => rev cur :: split_from [] s'
           end
      else split_from (c :: cur) s'
  end.

Definition split (s : str) : list str := split_from [] s.

(** [sep.join(parts)]. *)
Fixpoint join (sep : str) (parts : list str) : str :=
  match parts with
  | [] => []
  | [p] => p
  | p :: (_ :: _) as rest => p ++ sep ++ join sep rest
  end.

(** [s.lstrip()], [s.rstrip()], [s.strip()] without argument. *)
Fixpoint lstrip (s : str) : str :=
  match s with
  | [] => []
  | c :: s' => if isspace c then lstrip s' else s
  end.

Definition rstrip (s : str) : str := rev (lstrip (rev s)).

Definition strip (s : str) : str := rstrip (lstrip s).

(** [p in s] for strings: [p] occurs as a contiguous substring of [s]. *)
Fixpoint startswith (p s : str) : bool :=
  match p, s with
  | [], _ => true
  | _ :: _, [] => false
  | a :: p', b :: s' => (a =? b)%N && startswith p' s'
  end.

Fixpoint contains (p s : str) : bool :=
  startswith p s ||
  match s with
  | [] => false
  | _ :: s' => contains p s'
  end.

End PyStr.

Import PyStr.

(** ** The text normaliser *)

(** [clean_text]: empty text is returned as it is; otherwise carriage
    returns and line feeds become spaces and the words of the result are
    joined by single spaces. *)
Definition clean_text (text : str) : str :=
  match text with
  | [] => text
  | _ :: _ =>
      let text := replace LF SP (replace CR SP text) in
      join [SP] (split text)
  end.


(** ** Tables and the world outside the process *)

(** A row of the source table: the two columns the pipeline reads. *)
Record SourceRow := { row_context : str; row_ids : str }.

(** A CSV record is its list of fields. *)
Definition record : Type := list str.

(** The file at a path.  [Table header rows] is a file the tabular reader
    parses: a header record and the data records after it.  [Unreadable e
    tail] is a file that exists and on which [pd.read_csv] raises [e];
    [tail] holds the records appended to it since. *)
Inductive file :=
| Absent
| Unreadable (e : str) (tail : list record)
| Table (header : record) (rows : list record).

(** The source file as [os.path.exists] and [pd.read_csv] see it. *)
Inductive input :=
| InputMissing
| InputUnreadable (e : str)
| InputTable (df : list SourceRow).

(** What the remote model answers: [response.text], and the total token
    count of [response.usage_metadata] when the object has that attribute. *)
Record response := { response_text : str; usage_metadata : option Z }.

(** One call of [client.models.generate_content]: a response, or an
    exception given by its [str(e)]. *)
Inductive remote_result :=
| Returns (r : response)
| Raises (e : str).

(** The environment of one run. *)
Record env := {
  getenv_GEMINI_API_KEY : option str;
  input_csv : input;
  (** the service's answer, while row [index] is handled, to a client built
      with an API key and sending a prompt *)
  remote : Z -> str -> str -> remote_result;
  (** [Some e]: creating the output file raises [e] *)
  create_error : option str;
  (** [Some e]: appending the row of [index] raises [e], nothing is written *)
  append_error : Z -> option str }.

(** The command line, after [argparse]. *)
Record args := {
  input_file : str;
  output_file : str;
  api_key : option str;
  start : Z;
  end_ : option Z;
  source : str;
  target : str }.

(** What the program prints: one constructor per [print] statement, or per
    block of [print] statements that always run together. *)
Inductive message :=
| MsgNoUsageWarning
| MsgQuotaExceeded
| MsgTranslationError (e : str)
| MsgNoApiKey
| MsgInputMissing (path : str)
| MsgLoaded (n : Z) (path : str)
| MsgInputError (e : str)
| MsgFoundExisting (n : Z)
| MsgOutputReadError (e : str)
| MsgCreated (path : str)
| MsgCreateError (e : str)
| MsgRowError (index : Z) (e : str)
| MsgRowWritten (row_number total token_usage total_usage processed skipped : Z)
| MsgWriteError (index : Z) (e : str)
| MsgSummary (total processed skipped : Z) (path : str).

(** The effects a run performs on its collaborators, in order. *)
Inductive event :=
| ERead (index : Z)
| ECall (prompt : str) (answer : remote_result)
| EAppend (r : record).

(** ** The process: local variables of [main], output file, output *)

Record state := {
  out : file;
  stdout : list message;
  trace : list event;
  translated_ids : gset str;
  processed_count : Z;
  skipped_count : Z;
  total_token_usage : Z }.

Definition initial (f : file) : state :=
  {| out := f; stdout := []; trace := []; translated_ids := ∅;
     processed_count := 0; skipped_count := 0; total_token_usage := 0 |}.

(** How a computation ends: a value, a Python exception ([Exception]
    subclass, by its message), or [sys.exit(code)], which [except Exception]
    does not catch. *)
Inductive outcome (A : Type) :=
| Normal (a : A)
| Raise (e : str)
| SysExit (code : Z).
Arguments Normal {A} a.
Arguments Raise {A} e.
Arguments SysExit {A} code.

Definition M (A : Type) : Type := state -> outcome A * state.

Definition ret {A} (a : A) : M A := fun st => (Normal a, st).

Definition bind {A B} (m : M A) (k : A -> M B) : M B :=
  fun st =>
    match m st with
    | (Normal a, st') => k a st'
    | (Raise e, st') => (Raise e, st')
    | (SysExit c, st') => (SysExit c, st')
    end.

Declare Scope proc_scope.
Delimit Scope proc_scope with proc.
Notation "x <- m ;; k" := (bind m (fun x => k))
  (at level 100, m at next level, right associativity) : proc_scope.
Notation "m ;; k" := (bind m (fun _ => k))
  (at level 100, right associativity) : proc_scope.
Local Open Scope proc_scope.

Definition raise {A} (e : str) : M A := fun st => (Raise e, st).

Definition sys_exit {A} (code : Z) : M A := fun st => (SysExit code, st).

(** [try: body  except Exception as e: handler e]. *)
Definition try_except {A} (body : M A) (handler : str -> M A) : M A :=
  fun st =>
    match body st with
    | (Raise e, st') => handler e st'
    | r => r
    end.

Definition get : M state := fun st => (Normal st, st).

Definition modify (f : state -> state) : M unit := fun st => (Normal tt, f st).

Definition print (m : message) : M unit :=
  modify (fun st =>
    {| out := out st; stdout := stdout st ++ [m]; trace := trace st;
       translated_ids := translated_ids st;
       processed_count := processed_count st;
       skipped_count := skipped_count st;
       total_token_usage := total_token_usage st |}).

Definition emit (ev : event) : M unit :=
  modify (fun st =>
    {| out := out st; stdout := stdout st; trace := trace st ++ [ev];
       translated_ids := translated_ids st;
       processed_count := processed_count st;
       skipped_count := skipped_count st;
       total_token_usage := total_token_usage st |}).

Definition set_out (f : file) : M unit :=
  modify (fun st =>
    {| out := f; stdout := stdout st; trace := trace st;
       translated_ids := translated_ids st;
       processed_count := processed_count st;
       skipped_count := skipped_count st;
       total_token_usage := total_token_usage st |}).

Definition set_translated_ids (ids : gset str) : M unit :=
  modify (fun st =>
    {| out := out st; stdout := stdout st; trace := trace st;
       translated_ids := ids;
       processed_count := processed_count st;
       skipped_count := skipped_count st;
       total_token_usage := total_token_usage st |}).

(** [skipped_count += 1] *)
Definition incr_skipped : M unit :=
  modify (fun st =>
    {| out := out st; stdout := stdout st; trace := trace st;
       translated_ids := translated_ids st;
       processed_count := processed_count st;
       skipped_count := skipped_count st + 1;
       total_token_usage := total_token_usage st |}).

(** [processed_count += 1] *)
Definition incr_processed : M unit :=
  modify (fun st =>
    {| out := out st; stdout := stdout st; trace := trace st;
       translated_ids := translated_ids st;
       processed_count := processed_count st + 1;
       skipped_count := skipped_count st;
       total_token_usage := total_token_usage st |}).

(** [total_token_usage += token_usage] *)
Definition add_token_usage (token_usage : Z) : M unit :=
  modify (fun st =>
    {| out := out st; stdout := stdout st; trace := trace st;
       translated_ids := translated_ids st;
       processed_count := processed_count st;
       skipped_count := skipped_count st;
       total_token_usage := total_token_usage st + token_usage |}).

(** ** The translator *)

(** The instruction sent to the model: an f-string over the two language
    names and the text, the text between double quotes. *)
Definition prompt_of (text source target : str) : str :=
  lit "Translate the following " ++ source ++ lit " text to " ++ target
  ++ lit ":" ++ [LF; LF; QUOTE] ++ text ++ [QUOTE].

(** [client.models.generate_content(model=..., contents=prompt)] *)
Definition generate_content (client : str -> remote_result) (prompt : str)
  : M response :=
  emit (ECall prompt (client prompt)) ;;
  match client prompt with
  | Returns r => ret r
  | Raises e => raise e
  end.

(** The test of the [except] clause on [str(e)]. *)
Definition is_quota_error (e : str) : bool :=
  contains (lit "RESOURCE_EXHAUSTED") e || contains (lit "429") e.

(** [translate]: one remote call inside [try]; the text of the answer is
    stripped and cleaned; every exception ends the process with status 1,
    after a message that depends on its kind. *)
Definition translate (genai_Client : str -> str -> remote_result)
    (api_key text source target : str) : M (str * Z) :=
  let client := genai_Client api_key in
  let prompt := prompt_of text source target in
  try_except
    (response <- generate_content client prompt ;;
     let translation := strip (response_text response) in
     let translation := clean_text translation in
     match usage_metadata response with
     | Some total_token_count => ret (translation, total_token_count)
     | None => print MsgNoUsageWarning ;; ret (translation, 0)
     end)
    (fun e =>
       if is_quota_error e
       then print MsgQuotaExceeded ;; sys_exit 1
       else print (MsgTranslationError e) ;; sys_exit 1).

(** ** The batch runner *)

(** [a or b] on optional strings: [a] when it is truthy. *)
Definition py_or (a b : option str) : option str :=
  match a with
  | Some (_ :: _) => a
  | _ => b
  end.

(** [not api_key] *)
Definition falsy (a : option str) : bool :=
  match a with
  | Some (_ :: _) => false
  | _ => true
  end.

(** The header the program writes into a new output file. *)
Definition out_header : record :=
  [lit "context"; lit "id"; lit "context_my"].

(** Position of a column name in a header. *)
Fixpoint column_index (name : str) (header : record) : option nat :=
  match header with
  | [] => None
  | h :: header' =>
      if decide (h = name) then Some 0%nat
      else S <$> column_index name header'
  end.

(** [pd.read_csv(path)['context']]: the cells of the column, or the
    exception raised. *)
Definition read_context_column (f : file) : M (list str) :=
  match f with
  | Absent => raise (lit "No such file or directory")
  | Unreadable e _ => raise e
  | Table header rows =>
      match column_index (lit "context") header with
      | Some i => ret (List.map (fun r => nth i r []) rows)
      | None => raise (lit "'context'")
      end
  end.

(** One more record at the end of the file ([open(..., mode='a')] creates a
    missing file). *)
Definition appended (r : record) (f : file) : file :=
  match f with
  | Absent => Table r []
  | Unreadable e tail => Unreadable e (tail ++ [r])
  | Table header rows => Table header (rows ++ [r])
  end.

(** The [with open(output_filepath, mode='a') ...: writer.writerow(...)]
    block. *)
Definition append_row (failure : option str) (r : record) : M unit :=
  match failure with
  | Some e => raise e
  | None =>
      st <- get ;;
      set_out (appended r (out st)) ;;
      emit (EAppend r)
  end.

(** [range(start, stop)] *)
Definition py_range (start stop : Z) : list Z := seqZ start (stop - start).

(** The row [df.iloc[index]] denotes: negative positions count from the
    end; there is none outside the table. *)
Definition row_at (df : list SourceRow) (index : Z) : option SourceRow :=
  let n := Z.of_nat (length df) in
  let position := if index <? 0 then n + index else index in
  if (0 <=? position) && (position <? n)
  then df !! Z.to_nat position
  else None.

Definition IndexError : str :=
  lit "single positional indexer is out-of-bounds".

(** [df.iloc[index]]; a position outside the table raises [IndexError]. *)
Definition iloc (df : list SourceRow) (index : Z) : M SourceRow :=
  emit (ERead index) ;;
  match row_at df index with
  | Some row => ret row
  | None => raise IndexError
  end.

(** [for index in indices: body index] *)
Fixpoint for_each (indices : list Z) (body : Z -> M unit) : M unit :=
  match indices with
  | [] => ret tt
  | index :: rest => body index ;; for_each rest body
  end.

(** The body of the loop of [main]. *)
Definition loop_body (a : args) (e : env) (key : str)
    (df : list SourceRow) (total_rows : Z) (index : Z) : M unit :=
  row <- iloc df index ;;
  let context := row_context row in
  st <- get ;;
  if decide (context ∈ translated_ids st)
  then incr_skipped
  else
    translated <-
      try_except
        (r <- translate (remote e index) key context (source a) (target a) ;;
         incr_processed ;;
         add_token_usage (snd r) ;;
         ret r)
        (fun ex => print (MsgRowError index ex) ;; sys_exit 1) ;;
    let translated_context := fst translated in
    let token_usage := snd translated in
    try_except
      (append_row (append_error e index)
         [row_context row; row_ids row; translated_context] ;;
       st <- get ;;
       print (MsgRowWritten (index + 1) total_rows token_usage
                (total_token_usage st) (processed_count st)
                (skipped_count st)))
      (fun ex => print (MsgWriteError index ex)).

(** Opening of the progress store: lines 86 to 105. *)
Definition bootstrap (a : args) (e : env) : M unit :=
  st <- get ;;
  match out st with
  | Absent =>
      match create_error e with
      | None =>
          set_out (Table out_header []) ;;
          set_translated_ids ∅ ;;
          print (MsgCreated (output_file a))
      | Some ex => print (MsgCreateError ex) ;; sys_exit 1
      end
  | _ =>
      try_except
        (column <- read_context_column (out st) ;;
         set_translated_ids (list_to_set column) ;;
         print (MsgFoundExisting (Z.of_nat (size (list_to_set column : gset str)))))
        (fun ex =>
           print (MsgOutputReadError ex) ;;
           set_translated_ids ∅)
  end.

(** The loop of [main] and the summary after it: lines 107 to 150. *)
Definition batch (a : args) (e : env) (key : str) (df : list SourceRow)
  : M unit :=
  let start := start a in
  let end_ := match end_ a with Some n => n | None => Z.of_nat (length df) end in
  let total_rows := Z.of_nat (length df) in
  for_each (py_range start (Z.min end_ total_rows))
    (loop_body a e key df total_rows) ;;
  st <- get ;;
  print (MsgSummary total_rows (processed_count st) (skipped_count st)
           (output_file a)).

Definition main (a : args) (e : env) : M unit :=
  let api_key := py_or (api_key a) (getenv_GEMINI_API_KEY e) in
  if falsy api_key then print MsgNoApiKey ;; sys_exit 1
  else
    let key := default [] api_key in
    match input_csv e with
    | InputMissing => print (MsgInputMissing (input_file a)) ;; sys_exit 1
    | InputUnreadable ex => print (MsgInputError ex) ;; sys_exit 1
    | InputTable df =>
        print (MsgLoaded (Z.of_nat (length df)) (input_file a)) ;;
        bootstrap a e ;;
        batch a e key df
    end.

(** The process as the operating system sees it: the exit status (an
    uncaught exception ends the interpreter with status 1) and the final
    state. *)
Definition exit_status {A} (o : outcome A) : Z :=
  match o with
  | Normal _ => 0
  | Raise _ => 1
  | SysExit code => code
  end.

Definition run (a : args) (e : env) (sink : file) : Z * state :=
  let r := main a e (initial sink) in
  (exit_status (fst r), snd r).

(** ** Vocabulary of the specification *)

(** A word: non-empty and free of whitespace. *)
Definition is_word (w : str) : Prop :=
  w ≠ [] ∧ Forall (fun c => isspace c = false) w.

(** No two neighbouring characters of [s] are both whitespace. *)
Fixpoint no_adjacent_space (s : str) : bool :=
  match s with
  | c1 :: s' =>
      match s' with
      | c2 :: _ => negb (isspace c1 && isspace c2) && no_adjacent_space s'
      | [] => true
      end
  | [] => true
  end.

(** The records a trace appended, the indices it read, the answers of the
    calls that returned. *)
Definition appends_of (t : list event) : list record :=
  omap (fun ev => match ev with EAppend r => Some r | _ => None end) t.

Definition reads_of (t : list event) : list Z :=
  omap (fun ev => match ev with ERead i => Some i | _ => None end) t.

Definition returned_calls (t : list event) : list response :=
  omap (fun ev => match ev with ECall _ (Returns r) => Some r | _ => None end) t.

(** A call that raised. *)
Definition failed_call (ev : event) : Prop :=
  match ev with ECall _ (Raises _) => True | _ => False end.

(** The token count [translate] reports for an answer. *)
Definition token_count_of (r : response) : Z :=
  default 0 (usage_metadata r).

Definition sum_Z (l : list Z) : Z := foldr Z.add 0 l.

(** The output file once [main] has opened it: a missing file is created
    with the header. *)
Definition opened (f : file) : file :=
  match f with
  | Absent => Table out_header []
  | _ => f
  end.

Definition with_appended (f : file) (rs : list record) : file :=
  foldl (fun f r => appended r f) f rs.

(** The cells of the [context] column of a readable file. *)
Definition context_cells (f : file) : option (list str) :=
  match f with
  | Table header rows =>
      (fun i => List.map (fun r => nth i r []) rows)
        <$> column_index (lit "context") header
  | _ => None
  end.

(** The completed keys a file stands for at the start of a run. *)
Definition completed_keys (f : file) : gset str :=
  match context_cells f with
  | Some cells => list_to_set cells
  | None => ∅
  end.


(** The effective stop of the range and the indices the loop iterates. *)
Definition stop_of (a : args) (df : list SourceRow) : Z :=
  Z.min (default (Z.of_nat (length df)) (end_ a)) (Z.of_nat (length df)).

Definition indices_of (a : args) (df : list SourceRow) : list Z :=
  py_range (start a) (stop_of a df).


(** States reached from [st] by the paths of the loop body. *)
Definition read_only (index : Z) (st : state) : state :=
  {| out := out st; stdout := stdout st;
     trace := trace st ++ [ERead index];
     translated_ids := translated_ids st;
     processed_count := processed_count st;
     skipped_count := skipped_count st;
     total_token_usage := total_token_usage st |}.

Definition after_skip (index : Z) (st : state) : state :=
  {| out := out st; stdout := stdout st;
     trace := trace st ++ [ERead index];
     translated_ids := translated_ids st;
     processed_count := processed_count st;
     skipped_count := skipped_count st + 1;
     total_token_usage := total_token_usage st |}.

Definition failure_message (err : str) : message :=
  if is_quota_error err then MsgQuotaExceeded else MsgTranslationError err.

Definition after_failed_call (index : Z) (prompt err : str) (st : state)
  : state :=
  {| out := out st; stdout := stdout st ++ [failure_message err];
     trace := trace st ++ [ERead index; ECall prompt (Raises err)];
     translated_ids := translated_ids st;
     processed_count := processed_count st;
     skipped_count := skipped_count st;
     total_token_usage := total_token_usage st |}.

Definition usage_warning (r : response) : list message :=
  match usage_metadata r with
  | Some _ => []
  | None => [MsgNoUsageWarning]
  end.

Definition after_translation (index : Z) (prompt : str) (r : response)
    (st : state) : state :=
  {| out := out st; stdout := stdout st ++ usage_warning r;
     trace := trace st ++ [ERead index; ECall prompt (Returns r)];
     translated_ids := translated_ids st;
     processed_count := processed_count st + 1;
     skipped_count := skipped_count st;
     total_token_usage := total_token_usage st + token_count_of r |}.

Definition after_append (index total_rows : Z) (rec : record)
    (token_usage : Z) (st : state) : state :=
  {| out := appended rec (out st);
     stdout := stdout st ++
       [MsgRowWritten (index + 1) total_rows token_usage
          (total_token_usage st) (processed_count st) (skipped_count st)];
     trace := trace st ++ [EAppend rec];
     translated_ids := translated_ids st;
     processed_count := processed_count st;
     skipped_count := skipped_count st;
     total_token_usage := total_token_usage st |}.

Definition after_failed_append (index : Z) (ex : str) (st : state) : state :=
  {| out := out st; stdout := stdout st ++ [MsgWriteError index ex];
     trace := trace st;
     translated_ids := translated_ids st;
     processed_count := processed_count st;
     skipped_count := skipped_count st;
     total_token_usage := total_token_usage st |}.

(** The record the loop writes for a row and an answer. *)
Definition record_of (row : SourceRow) (r : response) : record :=
  [row_context row; row_ids row; clean_text (strip (response_text r))].

(** The loop body path by path. *)
Definition body_result (a : args) (e : env) (key : str)
    (df : list SourceRow) (total_rows index : Z) (st : state)
  : outcome unit * state :=
  match row_at df index with
  | None => (Raise IndexError, read_only index st)
  | Some row =>
      if decide (row_context row ∈ translated_ids st)
      then (Normal tt, after_skip index st)
      else
        let prompt := prompt_of (row_context row) (source a) (target a) in
        match remote e index key prompt with
        | Raises err => (SysExit 1, after_failed_call index prompt err st)
        | Returns r =>
            let st1 := after_translation index prompt r st in
            match append_error e index with
            | Some ex => (Normal tt, after_failed_append index ex st1)
            | None =>
                (Normal tt,
                 after_append index total_rows (record_of row r)
                   (token_count_of r) st1)
            end
        end
  end.

(** The loop ran over [indices] without leaving it. *)
Inductive steps (body : Z -> M unit) : list Z -> state -> state -> Prop :=
| steps_nil st : steps body [] st st
| steps_cons i rest st st1 st2 :
    body i st = (Normal tt, st1) →
    steps body rest st1 st2 →
    steps body (i :: rest) st st2.

(** What [bootstrap] prints for a file it can open. *)
Definition bootstrap_message (a : args) (f : file) : message :=
  match f with
  | Absent => MsgCreated (output_file a)
  | Unreadable ex _ => MsgOutputReadError ex
  | Table _ _ =>
      match context_cells f with
      | Some _ => MsgFoundExisting (Z.of_nat (size (completed_keys f)))
      | None => MsgOutputReadError (lit "'context'")
      end
  end.

Definition after_bootstrap (a : args) (st : state) : state :=
  {| out := opened (out st);
     stdout := stdout st ++ [bootstrap_message a (out st)];
     trace := trace st;
     translated_ids := completed_keys (out st);
     processed_count := processed_count st;
     skipped_count := skipped_count st;
     total_token_usage := total_token_usage st |}.

(** The API key [main] resolves. *)
Definition resolved_key (a : args) (e : env) : option str :=
  py_or (api_key a) (getenv_GEMINI_API_KEY e).

(** The run gets as far as the loop, over the source table [df]. *)
Definition loop_runs (a : args) (e : env) (sink : file)
    (df : list SourceRow) : Prop :=
  falsy (resolved_key a e) = false
  ∧ input_csv e = InputTable df
  ∧ (sink = Absent → create_error e = None).

(** The state in which the loop starts, and the one the summary leaves. *)
Definition started (a : args) (df : list SourceRow) (sink : file) : state :=
  {| out := opened sink;
     stdout := [MsgLoaded (Z.of_nat (length df)) (input_file a);
                bootstrap_message a sink];
     trace := [];
     translated_ids := completed_keys sink;
     processed_count := 0; skipped_count := 0; total_token_usage := 0 |}.

Definition summarised (a : args) (df : list SourceRow) (st : state) : state :=
  {| out := out st;
     stdout := stdout st ++
       [MsgSummary (Z.of_nat (length df)) (processed_count st)
          (skipped_count st) (output_file a)];
     trace := trace st;
     translated_ids := translated_ids st;
     processed_count := processed_count st;
     skipped_count := skipped_count st;
     total_token_usage := total_token_usage st |}.

(** The loop body of a run. *)
Definition body_of (a : args) (e : env) (df : list SourceRow) : Z -> M unit :=
  loop_body a e (default [] (resolved_key a e)) df (Z.of_nat (length df)).

(** [st'] continues [st] by the effects [new]: the file gained the appended
    records, the completed keys are the same, and the counters of processed
    rows and of tokens grew by the calls that returned. *)
Definition extends (st : state) (new : list event) (st' : state) : Prop :=
  trace st' = trace st ++ new
  ∧ out st' = with_appended (out st) (appends_of new)
  ∧ translated_ids st' = translated_ids st
  ∧ processed_count st'
    = processed_count st + Z.of_nat (length (returned_calls new))
  ∧ total_token_usage st'
    = total_token_usage st + sum_Z (token_count_of <$> returned_calls new).

(** The paths through the loop body at index [i], for completed keys [ids]:
    how each ends and the effects it performs. *)
Inductive body_path (a : args) (e : env) (df : list SourceRow)
    (ids : gset str) (i : Z) : outcome unit -> list event -> Prop :=
| path_index_error :
    row_at df i = None →
    body_path a e df ids i (Raise IndexError) [ERead i]
| path_skipped row :
    row_at df i = Some row →
    row_context row ∈ ids →
    body_path a e df ids i (Normal tt) [ERead i]
| path_call_failed row err :
    row_at df i = Some row →
    row_context row ∉ ids →
    remote e i (default [] (resolved_key a e))
      (prompt_of (row_context row) (source a) (target a)) = Raises err →
    body_path a e df ids i (SysExit 1)
      [ERead i;
       ECall (prompt_of (row_context row) (source a) (target a)) (Raises err)]
| path_written row r :
    row_at df i = Some row →
    row_context row ∉ ids →
    remote e i (default [] (resolved_key a e))
      (prompt_of (row_context row) (source a) (target a)) = Returns r →
    append_error e i = None →
    body_path a e df ids i (Normal tt)
      [ERead i;
       ECall (prompt_of (row_context row) (source a) (target a)) (Returns r);
       EAppend (record_of row r)]
| path_write_failed row r ex :
    row_at df i = Some row →
    row_context row ∉ ids →
    remote e i (default [] (resolved_key a e))
      (prompt_of (row_context row) (source a) (target a)) = Returns r →
    append_error e i = Some ex →
    body_path a e df ids i (Normal tt)
      [ERead i;
       ECall (prompt_of (row_context row) (source a) (target a)) (Returns r)].


(** The state [translate] leaves after a call that returned [r]. *)
Definition after_call (prompt : str) (r : response) (st : state) : state :=
  {| out := out st; stdout := stdout st ++ usage_warning r;
     trace := trace st ++ [ECall prompt (Returns r)];
     translated_ids := translated_ids st;
     processed_count := processed_count st;
     skipped_count := skipped_count st;
     total_token_usage := total_token_usage st |}.

(** ** Sample runs *)

Module Sample.

(** A command line with an API key, the default languages and a range. *)
Definition cli (start : Z) (end_ : option Z) : args :=
  {| input_file := lit "in.csv"; output_file := lit "out.csv";
     api_key := Some (lit "key"); start := start; end_ := end_;
     source := lit "English"; target := lit "Myanmar" |}.

Definition source_row (text id : str) : SourceRow :=
  {| row_context := text; row_ids := id |}.

(** A service that answers every prompt with the same text and count. *)
Definition answers (t : str) (tokens : option Z) : Z -> str -> str -> remote_result :=
  fun _ _ _ => Returns {| response_text := t; usage_metadata := tokens |}.

(** A service that is out of quota from row [k] on. *)
Definition exhausted_from (k : Z) (t : str) : Z -> str -> str -> remote_result :=
  fun index _ _ =>
    if index <? k
    then Returns {| response_text := t; usage_metadata := Some 7 |}
    else Raises (lit "429 RESOURCE_EXHAUSTED").

Definition world (df : list SourceRow)
    (service : Z -> str -> str -> remote_result)
    (append_error : Z -> option str) : env :=
  {| getenv_GEMINI_API_KEY := None; input_csv := InputTable df;
     remote := service; create_error := None;
     append_error := append_error |}.

Definition no_failure : Z -> option str := fun _ => None.


(** Three rows with different texts. *)
Definition three : list SourceRow :=
  [source_row (lit "a") (lit "1"); source_row (lit "b") (lit "2");
   source_row (lit "c") (lit "3")].


(** A sink that already holds the row of text [a]. *)
Definition sink_with_a : file :=
  Table out_header [[lit "a"; lit "1"; lit "A"]].

(** An answer with line breaks inside and spaces around. *)
Definition ragged : response :=
  {| response_text := lit " a" ++ [LF; LF] ++ lit "b ";
     usage_metadata := Some 5 |}.

End Sample.

Module Runs.







(** A run over three rows whose service is out of quota from row 1 on. *)
Definition quota_env : env :=
  Sample.world Sample.three (Sample.exhausted_from 1 (lit "A"))
    Sample.no_failure.

Definition quota_prompt : str :=
  prompt_of (lit "b") (lit "English") (lit "Myanmar").

(** Runs over three rows with a service that always answers. *)
Definition three_env : env :=
  Sample.world Sample.three (Sample.answers (lit "A") (Some 7))
    Sample.no_failure.


(** An environment in which the append of row 0 fails; a first run in it
    over a sink that holds the header alone, and a second run, with every
    append succeeding, over the file the first one left. *)
Definition failing_append_env : env :=
  Sample.world Sample.three (Sample.answers (lit "A") (Some 7))
    (fun i => if i =? 0 then Some (lit "Permission denied") else None).



End Runs.

(** ** Further vocabulary *)

(** A normalised text: its only whitespace is the single space, never
    doubled, and it neither starts nor ends with whitespace. *)
Definition normalised (s : str) : Prop :=
  (∀ c, c ∈ s → isspace c = true → c = SP)
  ∧ no_adjacent_space s = true
  ∧ (∀ c, head s = Some c → isspace c = false)
  ∧ (∀ c, last s = Some c → isspace c = false).

(** The characters of a text that are not whitespace, in order. *)
Definition visible (s : str) : str :=
  List.filter (fun c => negb (isspace c)) s.

(** The messages the loop body can print. *)
Definition loop_message (m : message) : Prop :=
  match m with
  | MsgNoUsageWarning | MsgQuotaExceeded | MsgTranslationError _
  | MsgRowWritten _ _ _ _ _ _ | MsgWriteError _ _ => True
  | _ => False
  end.

Definition is_write_error (m : message) : bool :=
  match m with MsgWriteError _ _ => true | _ => false end.

(** The number of appends a standard output reports as failed. *)
Definition write_errors (l : list message) : nat :=
  length (List.filter is_write_error l).

Definition is_summary (m : message) : Prop :=
  match m with MsgSummary _ _ _ _ => True | _ => False end.

(** What a run prints before the loop. *)
Definition prelude (a : args) (df : list SourceRow) (sink : file)
  : list message :=
  [MsgLoaded (Z.of_nat (length df)) (input_file a); bootstrap_message a sink].


Module MoreRuns.

(** A service that fails on every call with a network error. *)
Definition offline : Z -> str -> str -> remote_result :=
  fun _ _ _ => Raises (lit "connection reset").

Definition offline_env : env :=
  Sample.world Sample.three offline Sample.no_failure.

End MoreRuns.

Module ResumeRuns.



End ResumeRuns.

(** * Properties *)

(** ** The text normaliser *)

Section Normalizer.

Local Open Scope nat_scope.

Lemma isspace_SP : isspace SP = true.
Proof. reflexivity. Qed.

Lemma replace_isspace old new c :
  isspace old = true → isspace new = true →
  isspace (if (c =? old)%N then new else c) = isspace c.
Proof.
  intros Hold Hnew. destruct (N.eqb_spec c old) as [->|]; [|done].
  by rewrite Hold, Hnew.
Qed.

(** Replacing whitespace by whitespace does not move the word boundaries. *)
Lemma split_from_replace old new cur s :
  isspace old = true → isspace new = true →
  split_from cur (replace old new s) = split_from cur s.
Proof.
  intros Hold Hnew. revert cur.
  induction s as [|c s IH]; intros cur; simpl; [done|].
  rewrite (replace_isspace old new c Hold Hnew).
  destruct (isspace c) eqn:Hc.
  - destruct cur; by rewrite IH.
  - destruct (N.eqb_spec c old) as [->|]; [congruence|]. apply IH.
Qed.

Lemma clean_text_join_split s : clean_text s = join [SP] (split s).
Proof.
  destruct s as [|c s]; [done|].
  unfold clean_text, split. by rewrite !split_from_replace.
Qed.

Lemma split_from_words cur s :
  Forall (fun c => isspace c = false) cur →
  Forall is_word (split_from cur s).
Proof.
  revert cur. induction s as [|c s IH]; intros cur Hcur; simpl.
  - destruct cur as [|a cur]; [constructor|].
    constructor; [|constructor]. split.
    + intros H%(f_equal length). revert H. rewrite length_rev. done.
    + by apply Forall_rev.
  - destruct (isspace c) eqn:Hc.
    + destruct cur as [|a cur]; [by apply IH|].
      constructor; [|by apply IH]. split.
      * intros H%(f_equal length). revert H. rewrite length_rev. done.
      * by apply Forall_rev.
    + apply IH. by constructor.
Qed.

Lemma split_words s : Forall is_word (split s).
Proof. apply split_from_words. constructor. Qed.

Lemma split_from_app_word w cur s :
  Forall (fun c => isspace c = false) w →
  split_from cur (w ++ s) = split_from (rev w ++ cur) s.
Proof.
  revert cur. induction w as [|c w IH]; intros cur Hw; [done|].
  inversion_clear Hw as [|? ? Hc Hw']. simpl. rewrite Hc, IH by done.
  by rewrite <- app_assoc.
Qed.

Lemma split_from_end w :
  w ≠ [] → split_from (rev w) [] = [w].
Proof.
  intros Hne. pose proof (rev_involutive w) as Hinv.
  destruct (rev w) as [|a l] eqn:Hr; [by subst w|].
  cbn [split_from]. by rewrite Hinv.
Qed.

Lemma split_from_space w c s :
  w ≠ [] → isspace c = true →
  split_from (rev w) (c :: s) = w :: split_from [] s.
Proof.
  intros Hne Hc. pose proof (rev_involutive w) as Hinv.
  destruct (rev w) as [|a l] eqn:Hr; [by subst w|].
  cbn [split_from]. by rewrite Hc, Hinv.
Qed.

(** Splitting the join of words gives the words back. *)
Lemma split_join ws :
  Forall is_word ws → split (join [SP] ws) = ws.
Proof.
  unfold split. induction ws as [|w ws IH]; intros Hws; [done|].
  inversion_clear Hws as [|? ? [Hne Hw] Hws'].
  destruct ws as [|w' ws].
  - cbn [join]. rewrite <- (app_nil_r w) at 1.
    rewrite split_from_app_word by done. rewrite app_nil_r.
    by apply split_from_end.
  - change (join [SP] (w :: w' :: ws)) with (w ++ SP :: join [SP] (w' :: ws)).
    rewrite split_from_app_word by done. rewrite app_nil_r.
    rewrite split_from_space by done. f_equal. by apply IH.
Qed.

Lemma join_spaces ws c :
  Forall is_word ws → c ∈ join [SP] ws → isspace c = true → c = SP.
Proof.
  induction ws as [|w ws IH]; intros Hws Hc Hsp; [by apply elem_of_nil in Hc|].
  inversion_clear Hws as [|? ? [_ Hw] Hws'].
  assert (Hin : c ∈ w → False).
  { intros Hcw. rewrite Forall_forall in Hw. specialize (Hw _ Hcw). congruence. }
  destruct ws as [|w' ws]; [done|].
  change (join [SP] (w :: w' :: ws)) with (w ++ SP :: join [SP] (w' :: ws)) in Hc.
  apply elem_of_app in Hc as [?|Hc]; [done|].
  apply elem_of_cons in Hc as [?|Hc]; [done|]. by apply IH.
Qed.

Lemma join_head ws c :
  Forall is_word ws → head (join [SP] ws) = Some c → isspace c = false.
Proof.
  destruct ws as [|w ws]; [done|]. intros Hws Hh.
  inversion_clear Hws as [|? ? [Hne Hw] _].
  destruct w as [|a w]; [done|].
  inversion_clear Hw as [|? ? Ha _].
  destruct ws; simpl in Hh; by simplify_eq.
Qed.

Lemma join_last ws c :
  Forall is_word ws → last (join [SP] ws) = Some c → isspace c = false.
Proof.
  induction ws as [|w ws IH]; [done|]. intros Hws Hl.
  inversion_clear Hws as [|? ? [Hne Hw] Hws'].
  destruct ws as [|w' ws].
  - simpl in Hl. rewrite Forall_forall in Hw. apply Hw.
    by apply last_Some_elem_of.
  - change (join [SP] (w :: w' :: ws)) with (w ++ SP :: join [SP] (w' :: ws)) in Hl.
    assert (Hj : join [SP] (w' :: ws) ≠ []).
    { inversion_clear Hws' as [|? ? [Hne' _] _].
      destruct w'; [done|]. by destruct ws. }
    destruct (join [SP] (w' :: ws)) as [|j0 jl] eqn:Hjoin; [done|].
    rewrite last_app_cons, last_cons_cons in Hl.
    by apply IH.
Qed.

Lemma no_adjacent_space_cons c1 c2 s :
  no_adjacent_space (c1 :: c2 :: s)
  = negb (isspace c1 && isspace c2) && no_adjacent_space (c2 :: s).
Proof. reflexivity. Qed.

Lemma no_adjacent_space_app_word w s :
  Forall (fun c => isspace c = false) w →
  no_adjacent_space (w ++ s) = no_adjacent_space s.
Proof.
  induction w as [|c w IH]; intros Hw; [done|].
  inversion_clear Hw as [|? ? Hc Hw'].
  rewrite <- IH by done. change ((c :: w) ++ s) with (c :: (w ++ s)).
  generalize (w ++ s). intros [|c2 t]; [done|].
  by rewrite no_adjacent_space_cons, Hc.
Qed.

Lemma join_no_adjacent_space ws :
  Forall is_word ws → no_adjacent_space (join [SP] ws) = true.
Proof.
  induction ws as [|w ws IH]; intros Hws; [done|].
  inversion_clear Hws as [|? ? [Hne Hw] Hws'].
  destruct ws as [|w' ws].
  - cbn [join]. rewrite <- (app_nil_r w). by rewrite no_adjacent_space_app_word.
  - change (join [SP] (w :: w' :: ws)) with (w ++ SP :: join [SP] (w' :: ws)).
    rewrite no_adjacent_space_app_word by done.
    pose proof (join_head (w' :: ws)) as Hh.
    specialize (IH Hws').
    destruct (join [SP] (w' :: ws)) as [|j0 jl] eqn:Hjoin; [done|].
    rewrite no_adjacent_space_cons, (Hh j0 Hws' eq_refl), andb_false_r.
    exact IH.
Qed.

Lemma no_adjacent_space_sound s l1 c1 c2 l2 :
  no_adjacent_space s = true → s = l1 ++ c1 :: c2 :: l2 →
  isspace c1 = true → isspace c2 = false.
Proof.
  revert s. induction l1 as [|a l1 IH]; intros s Hs -> H1.
  - change (no_adjacent_space (c1 :: c2 :: l2) = true) in Hs.
    rewrite no_adjacent_space_cons, H1 in Hs.
    apply andb_true_iff in Hs as [Hs _]. by apply negb_true_iff in Hs.
  - change ((a :: l1) ++ c1 :: c2 :: l2) with (a :: (l1 ++ c1 :: c2 :: l2)) in Hs.
    destruct (l1 ++ c1 :: c2 :: l2) as [|b t] eqn:Hl; [by destruct l1|].
    rewrite no_adjacent_space_cons in Hs.
    apply andb_true_iff in Hs as [_ Hs]. rewrite <- Hl in Hs. by eapply IH.
Qed.

End Normalizer.

(** ** The process monad and the loop *)

Section Loop.

Lemma loop_body_eq a e key df total_rows index st :
  loop_body a e key df total_rows index st
  = body_result a e key df total_rows index st.
Proof.
  unfold loop_body, body_result, iloc, bind, emit, modify, get. simpl.
  destruct (row_at df index) as [row|]; [|done]. simpl.
  destruct (decide _); [done|].
  unfold translate, generate_content, try_except, bind, emit, modify. simpl.
  destruct (remote e index key _) as [r|err]; simpl.
  - unfold after_failed_append, after_append, after_translation, record_of,
      token_count_of, usage_warning, print, modify.
    destruct (usage_metadata r) as [cnt|]; simpl;
      destruct (append_error e index); simpl;
      rewrite <- ?app_assoc, ?app_nil_r; done.
  - unfold after_failed_call, failure_message, try_except, bind.
    destruct (is_quota_error err); simpl;
      rewrite <- ?app_assoc; done.
Qed.


Lemma for_each_abort body finished i rest st st1 o st' :
  steps body finished st st1 → body i st1 = (o, st') → o ≠ Normal tt →
  for_each (finished ++ i :: rest) body st = (o, st').
Proof.
  induction 1 as [|j l st st1 st2 Hb _ IH]; intros Hi Ho.
  - simpl. unfold bind. rewrite Hi. destruct o as [[]| |]; done.
  - simpl. unfold bind. rewrite Hb. by apply IH.
Qed.

(** A run of the loop either passes every index or leaves at the first
    index whose body does not end normally. *)
Lemma for_each_cases body l st o st' :
  for_each l body st = (o, st') →
  (o = Normal tt ∧ steps body l st st')
  ∨ (∃ finished i rest st1,
       l = finished ++ i :: rest ∧ steps body finished st st1
       ∧ body i st1 = (o, st') ∧ o ≠ Normal tt).
Proof.
  revert st. induction l as [|i l IH]; intros st H.
  - left. injection H as <- <-. split; [done|constructor].
  - simpl in H. unfold bind in H.
    destruct (body i st) as [[[]|ex|c] st1] eqn:Hb.
    + destruct (IH _ H) as [[-> Hs]|(fin & j & rest & st2 & -> & Hs & Hj & Ho)].
      * left. split; [done|]. by econstructor.
      * right. exists (i :: fin), j, rest, st2. repeat split; try done.
        by econstructor.
    + injection H as <- <-. right. exists [], i, l, st.
      repeat split; [constructor|done|done].
    + injection H as <- <-. right. exists [], i, l, st.
      repeat split; [constructor|done|done].
Qed.

Lemma steps_app body l1 l2 st st1 st2 :
  steps body l1 st st1 → steps body l2 st1 st2 → steps body (l1 ++ l2) st st2.
Proof.
  induction 1; intros; [done|]. simpl. econstructor; eauto.
Qed.

End Loop.

(** ** Opening the progress store and reaching the loop *)

Section Bootstrap.

Lemma bootstrap_eq a e st :
  bootstrap a e st =
  match out st, create_error e with
  | Absent, Some ex =>
      (SysExit 1,
       {| out := out st; stdout := stdout st ++ [MsgCreateError ex];
          trace := trace st; translated_ids := translated_ids st;
          processed_count := processed_count st;
          skipped_count := skipped_count st;
          total_token_usage := total_token_usage st |})
  | _, _ => (Normal tt, after_bootstrap a st)
  end.
Proof.
  unfold bootstrap, after_bootstrap, bootstrap_message, completed_keys,
    read_context_column, context_cells, try_except, bind, get,
    set_out, set_translated_ids, print, sys_exit, raise, ret, modify.
  destruct (out st) as [|ex tail|header rows] eqn:Hout.
  - destruct (create_error e); simpl; by rewrite ?Hout.
  - simpl. rewrite Hout. by destruct (create_error e).
  - destruct (column_index _ header) as [i|]; simpl; rewrite Hout;
      by destruct (create_error e).
Qed.

Lemma batch_eq a e key df st :
  batch a e key df st =
  match for_each (indices_of a df)
          (loop_body a e key df (Z.of_nat (length df))) st with
  | (Normal _, st1) => (Normal tt, summarised a df st1)
  | r => r
  end.
Proof.
  unfold batch, bind, indices_of, stop_of.
  destruct (end_ a); simpl; by destruct (for_each _ _ st) as [[[]| |] ?].
Qed.

Lemma main_loop_runs a e sink df :
  loop_runs a e sink df →
  main a e (initial sink)
  = batch a e (default [] (resolved_key a e)) df (started a df sink).
Proof.
  intros (Hkey & Hin & Hcreate). unfold main. fold (resolved_key a e).
  rewrite Hkey, Hin. unfold bind at 1. simpl.
  unfold bind at 1. rewrite bootstrap_eq. simpl.
  destruct sink as [| |]; simpl; [by rewrite Hcreate|..];
    by destruct (create_error e).
Qed.

(** A run that does not reach the loop ends with status 1 and touches
    nothing. *)
Lemma main_stops_early a e sink :
  (∀ df, ¬ loop_runs a e sink df) →
  ∃ st, main a e (initial sink) = (SysExit 1, st)
        ∧ out st = sink ∧ trace st = []
        ∧ processed_count st = 0 ∧ skipped_count st = 0
        ∧ total_token_usage st = 0.
Proof.
  intros Hno. unfold main. fold (resolved_key a e).
  destruct (falsy (resolved_key a e)) eqn:Hkey.
  { eexists. split; [reflexivity|done]. }
  destruct (input_csv e) as [|ex|df] eqn:Hin.
  1, 2: eexists; split; [reflexivity|done].
  unfold bind at 1. simpl. unfold bind at 1. rewrite bootstrap_eq. simpl.
  destruct sink as [| |]; simpl.
  - destruct (create_error e) eqn:Hc.
    + eexists. split; [reflexivity|done].
    + destruct (Hno df). by repeat split.
  - destruct (Hno df). by repeat split.
  - destruct (Hno df). by repeat split.
Qed.

Lemma loop_runs_or_not a e sink :
  (∃ df, loop_runs a e sink df) ∨ (∀ df, ¬ loop_runs a e sink df).
Proof.
  unfold loop_runs.
  destruct (falsy (resolved_key a e)); [right; intros ? (? & _); done|].
  destruct (input_csv e) as [| |df];
    [right; intros ? (_ & ? & _); done..|].
  destruct sink as [| |].
  - destruct (create_error e) eqn:Hc.
    + right. intros ? (_ & _ & H). by specialize (H eq_refl).
    + left. by exists df.
  - left. by exists df.
  - left. by exists df.
Qed.

End Bootstrap.

(** ** What one pass of the loop body and a run of the loop add *)

Section Effects.

Lemma sum_Z_app l1 l2 : sum_Z (l1 ++ l2) = sum_Z l1 + sum_Z l2.
Proof. unfold sum_Z. induction l1 as [|x l1 IH]; simpl; lia. Qed.

Lemma with_appended_app f rs1 rs2 :
  with_appended f (rs1 ++ rs2) = with_appended (with_appended f rs1) rs2.
Proof. apply foldl_app. Qed.

Lemma extends_refl st : extends st [] st.
Proof.
  unfold extends. simpl. rewrite app_nil_r. repeat split; lia.
Qed.

Lemma extends_trans st1 new1 st2 new2 st3 :
  extends st1 new1 st2 → extends st2 new2 st3 →
  extends st1 (new1 ++ new2) st3.
Proof.
  intros (Ht1 & Ho1 & Hi1 & Hp1 & Hu1) (Ht2 & Ho2 & Hi2 & Hp2 & Hu2).
  unfold extends, appends_of, returned_calls in *.
  rewrite !omap_app, fmap_app, length_app, sum_Z_app, with_appended_app.
  rewrite Ht2, Ht1, Ho2, Ho1, Hi2, Hi1, Hp2, Hp1, Hu2, Hu1.
  rewrite app_assoc. repeat split; lia.
Qed.

End Effects.

(** ** The paths of the loop body, for one invocation and source table *)

Section BodyPaths.

Context (a : args) (e : env) (df : list SourceRow).

(** The five paths of the loop body. *)
Lemma body_paths i st o st' :
  body_of a e df i st = (o, st') →
  ∃ new,
    body_path a e df (translated_ids st) i o new
    ∧ extends st new st'
    ∧ match o with
      | Normal _ =>
          skipped_count st' + processed_count st'
          = skipped_count st + processed_count st + 1
      | Raise _ => True
      | SysExit _ =>
          ∃ prompt err,
            new = [ERead i; ECall prompt (Raises err)]
            ∧ stdout st' = stdout st ++ [failure_message err]
      end.
Proof.
  unfold body_of. rewrite loop_body_eq. unfold body_result.
  destruct (row_at df i) as [row|] eqn:Hrow.
  2: { intros [= <- <-]. exists [ERead i]. split; [by constructor|].
       unfold extends. simpl. repeat split; lia. }
  destruct (decide _) as [Hin|Hin].
  { intros [= <- <-]. exists [ERead i]. split; [by econstructor|].
    unfold extends. simpl. repeat split; lia. }
  simpl. destruct (remote e i _ _) as [r|err] eqn:Hr.
  - destruct (append_error e i) as [ex|] eqn:Hw; intros [= <- <-].
    + eexists. split; [by eapply path_write_failed|].
      unfold extends, sum_Z. simpl. repeat split; lia.
    + eexists. split; [by eapply path_written|].
      unfold extends, sum_Z. simpl. rewrite <- app_assoc.
      repeat split; lia.
  - intros [= <- <-]. eexists. split; [by eapply path_call_failed|].
    unfold extends. simpl. repeat split; try lia. eauto.
Qed.

(** A run of the loop over [l] follows one normal path per index. *)
Lemma steps_paths l st st' :
  steps (body_of a e df) l st st' →
  ∃ news,
    Forall2 (fun i new => body_path a e df (translated_ids st) i (Normal tt) new)
      l news
    ∧ extends st (concat news) st'
    ∧ skipped_count st' + processed_count st'
      = skipped_count st + processed_count st + Z.of_nat (length l).
Proof.
  induction 1 as [st|i rest st st1 st2 Hb _ (news & Hp2 & He2 & Hc2)].
  - exists []. split; [constructor|]. split; [apply extends_refl|].
    simpl. lia.
  - destruct (body_paths _ _ _ _ Hb) as (new & Hp1 & He1 & Hc1).
    exists (new :: news).
    assert (Hids : translated_ids st1 = translated_ids st) by apply He1.
    rewrite Hids in Hp2.
    split; [by constructor|]. split; [by eapply extends_trans|].
    rewrite length_cons. lia.
Qed.

(** The three paths that end normally. *)
Lemma normal_path_inv ids i new :
  body_path a e df ids i (Normal tt) new →
  ∃ row, row_at df i = Some row ∧
    ((row_context row ∈ ids ∧ new = [ERead i])
     ∨ ((row_context row ∉ ids) ∧
        ∃ r,
          remote e i (default [] (resolved_key a e))
            (prompt_of (row_context row) (source a) (target a)) = Returns r
          ∧ ((append_error e i = None
              ∧ new = [ERead i;
                       ECall (prompt_of (row_context row) (source a) (target a))
                         (Returns r);
                       EAppend (record_of row r)])
             ∨ (∃ ex, append_error e i = Some ex
                ∧ new = [ERead i;
                         ECall (prompt_of (row_context row) (source a) (target a))
                           (Returns r)])))).
Proof.
  inversion 1; subst; eexists; (split; [eassumption|]); eauto 10.
Qed.



Lemma paths_calls_returned ids l news :
  Forall2 (fun i new => body_path a e df ids i (Normal tt) new) l news →
  Forall (fun ev => ¬ failed_call ev) (concat news).
Proof.
  induction 1 as [|i new l news Hp _ IH]; [constructor|].
  simpl. apply Forall_app. split; [|done].
  apply normal_path_inv in Hp
    as (row & _ & [[_ ->]|(_ & r & _ & [[_ ->]|(ex & _ & ->)])]);
    repeat constructor; by intros [].
Qed.




End BodyPaths.

Section RunCases.

(** Every run is of one of three kinds: it stops before the loop, it
    completes the range, or it leaves the loop at some index. *)
Lemma run_cases a e sink :
  (∃ st, run a e sink = (1, st) ∧ out st = sink ∧ trace st = []
         ∧ processed_count st = 0 ∧ skipped_count st = 0
         ∧ total_token_usage st = 0 ∧ ∀ df, ¬ loop_runs a e sink df)
  ∨ (∃ df st1,
       loop_runs a e sink df
       ∧ steps (body_of a e df) (indices_of a df) (started a df sink) st1
       ∧ run a e sink = (0, summarised a df st1))
  ∨ (∃ df finished i rest st1 o st2,
       loop_runs a e sink df
       ∧ indices_of a df = finished ++ i :: rest
       ∧ steps (body_of a e df) finished (started a df sink) st1
       ∧ body_of a e df i st1 = (o, st2)
       ∧ o ≠ Normal tt
       ∧ run a e sink = (1, st2)).
Proof.
  destruct (loop_runs_or_not a e sink) as [[df Hruns]|Hno].
  2: { left.
       destruct (main_stops_early a e sink Hno)
         as (st & Hm & Ho & Ht & Hp & Hs & Hu).
       exists st. unfold run. rewrite Hm. by repeat split. }
  right. unfold run. rewrite (main_loop_runs _ _ _ _ Hruns), batch_eq.
  fold (body_of a e df).
  destruct (for_each _ _ _) as [o st1] eqn:Hloop.
  apply for_each_cases in Hloop
    as [[-> Hs]|(fin & i & rest & st0 & Hl & Hs & Hb & Ho)].
  - left. exists df, st1. split; [exact Hruns|]. split; [exact Hs|]. reflexivity.
  - right. exists df, fin, i, rest, st0, o, st1.
    refine (conj Hruns (conj Hl (conj Hs (conj Hb (conj Ho _))))).
    destruct (body_paths _ _ _ _ _ _ _ Hb) as (new & Hpath & _).
    destruct o as [[]|ex|code]; [done|reflexivity|].
    inversion Hpath. reflexivity.
Qed.

End RunCases.

(** ** The claims about the normaliser and the translator *)

Section Translator.

(** C6. [clean_text] leaves no carriage return and no line feed, its only
    whitespace is the single space, no two whitespace characters are
    neighbours, the result neither starts nor ends with whitespace, and the
    words are those of the input in the same order; it is idempotent; and
    the text a, LF, LF, b, two spaces, c, CR becomes [a b c]. *)
Theorem clean_text_normalises (s : str) :
  (∀ c, c ∈ clean_text s → c ≠ CR ∧ c ≠ LF ∧ (isspace c = true → c = SP))
  ∧ (∀ l1 c1 c2 l2,
       clean_text s = l1 ++ c1 :: c2 :: l2 →
       isspace c1 = true → isspace c2 = false)
  ∧ (∀ c, head (clean_text s) = Some c → isspace c = false)
  ∧ (∀ c, last (clean_text s) = Some c → isspace c = false)
  ∧ split (clean_text s) = split s
  ∧ clean_text (clean_text s) = clean_text s
  ∧ clean_text (lit "a" ++ [LF; LF] ++ lit "b  c" ++ [CR]) = lit "a b c".
Proof.
  pose proof (split_words s) as Hw.
  rewrite !clean_text_join_split.
  assert (Hsp : ∀ c, c ∈ join [SP] (split s) → isspace c = true → c = SP)
    by (intros c; by apply join_spaces).
  split_and!.
  - intros c Hc. split_and!; [| |by apply Hsp].
    + intros ->. by specialize (Hsp _ Hc eq_refl).
    + intros ->. by specialize (Hsp _ Hc eq_refl).
  - intros l1 c1 c2 l2 Heq Hc1.
    eapply no_adjacent_space_sound; [|exact Heq|exact Hc1].
    by apply join_no_adjacent_space.
  - intros c. by apply join_head.
  - intros c. by apply join_last.
  - by apply split_join.
  - by rewrite split_join.
  - reflexivity.
Qed.

Lemma translate_returned genai_Client api_key text source target r st :
  genai_Client api_key (prompt_of text source target) = Returns r →
  translate genai_Client api_key text source target st
  = (Normal (clean_text (strip (response_text r)), token_count_of r),
     after_call (prompt_of text source target) r st).
Proof.
  intros Hr.
  unfold translate, generate_content, try_except, bind, emit, modify.
  simpl. rewrite Hr. simpl.
  unfold after_call, token_count_of, usage_warning, print, modify.
  destruct (usage_metadata r); simpl; by rewrite ?app_nil_r.
Qed.

(** C4, as the code has it.  When the remote call made for a row returns
    [r], [translate] returns the text of [r] stripped and cleaned by
    [clean_text], with the token count; the loop writes the text it got
    back without changing it. *)
Theorem translate_returns_cleaned_text a e df i row r st :
  row_at df i = Some row →
  row_context row ∉ translated_ids st →
  remote e i (default [] (resolved_key a e))
    (prompt_of (row_context row) (source a) (target a)) = Returns r →
  append_error e i = None →
  (∃ st1,
     translate (remote e i) (default [] (resolved_key a e))
       (row_context row) (source a) (target a) st
     = (Normal (clean_text (strip (response_text r)), token_count_of r), st1))
  ∧ (∃ st', body_of a e df i st = (Normal tt, st')
       ∧ out st'
         = appended [row_context row; row_ids row;
                     clean_text (strip (response_text r))] (out st)).
Proof.
  intros Hrow Hin Hr Hw. split.
  - eexists. by apply translate_returned.
  - unfold body_of. rewrite loop_body_eq. unfold body_result.
    rewrite Hrow. rewrite decide_False by done. simpl. rewrite Hr, Hw.
    eexists. split; reflexivity.
Qed.


End Translator.

(** ** The claims about the progress store and the loop body *)

Section ProgressStore.


(** C7. A failure of the append of a translated row does not end the run:
    the error is printed and the loop goes on with the next index; the file
    and the completed keys are as before, and the row stays counted as
    processed, with its tokens. *)
Theorem append_failure_is_not_fatal a e df i rest row r ex st :
  row_at df i = Some row →
  row_context row ∉ translated_ids st →
  remote e i (default [] (resolved_key a e))
    (prompt_of (row_context row) (source a) (target a)) = Returns r →
  append_error e i = Some ex →
  ∃ st',
    body_of a e df i st = (Normal tt, st')
    ∧ for_each (i :: rest) (body_of a e df) st
      = for_each rest (body_of a e df) st'
    ∧ last (stdout st') = Some (MsgWriteError i ex)
    ∧ out st' = out st
    ∧ translated_ids st' = translated_ids st
    ∧ processed_count st' = processed_count st + 1
    ∧ skipped_count st' = skipped_count st
    ∧ total_token_usage st' = total_token_usage st + token_count_of r.
Proof.
  intros Hrow Hin Hr Hw.
  assert (Hb : body_of a e df i st
               = (Normal tt,
                  after_failed_append i ex
                    (after_translation i
                       (prompt_of (row_context row) (source a) (target a))
                       r st))).
  { unfold body_of. rewrite loop_body_eq. unfold body_result.
    rewrite Hrow. rewrite decide_False by done. simpl. by rewrite Hr, Hw. }
  eexists. split; [exact Hb|].
  split; [simpl; unfold bind; by rewrite Hb|].
  simpl. split_and!; try done. by rewrite last_snoc.
Qed.

End ProgressStore.

(** ** The claims about whole runs *)

Section Runs.

Lemma loop_runs_table a e sink df df' :
  loop_runs a e sink df' → input_csv e = InputTable df → df' = df.
Proof. intros (_ & H1 & _) H2. congruence. Qed.

(** The effects of a path that leaves the loop hold no append. *)
Lemma leaving_path_appends a e df ids i o new :
  body_path a e df ids i o new → o ≠ Normal tt →
  appends_of new = [] ∧ returned_calls new = [] ∧ reads_of new = [i].
Proof. by inversion 1. Qed.

(** C3. When a remote call of a run raises the quota error, the process
    ends with status 1; that call is the last effect of the run, so no
    later row is read, sent or appended; the message printed last is the
    quota message; and the output file is the file as opened followed by
    every record appended before the call. *)
Theorem quota_exhaustion_ends_run a e sink prompt err :
  is_quota_error err = true →
  ECall prompt (Raises err) ∈ trace (run a e sink).2 →
  (run a e sink).1 = 1
  ∧ (run a e sink).1 ≠ 0
  ∧ (∃ before,
       trace (run a e sink).2 = before ++ [ECall prompt (Raises err)]
       ∧ Forall (fun ev => ¬ failed_call ev) before
       ∧ out (run a e sink).2
         = with_appended (opened sink) (appends_of before))
  ∧ last (stdout (run a e sink).2) = Some MsgQuotaExceeded.
Proof.
  intros Hq Hin.
  destruct (run_cases a e sink)
    as [(st0 & Hrun & _ & Ht & _)
       |[(df & st1 & _ & Hs & Hrun)
        |(df & fin & i & rest & st1 & o & st2 & _ & _ & Hs & Hb & Ho & Hrun)]];
    rewrite Hrun in *; simpl in *.
  - rewrite Ht in Hin. by apply elem_of_nil in Hin.
  - apply steps_paths in Hs as (news & Hp & (Ht & _) & _).
    apply paths_calls_returned in Hp. rewrite Ht in Hin. simpl in Hin.
    rewrite Forall_forall in Hp. by destruct (Hp _ Hin).
  - apply steps_paths in Hs as (news & Hp & (Ht & Hout & _) & _).
    apply paths_calls_returned in Hp. simpl in Ht, Hout.
    apply body_paths in Hb as (new & Hpath & (Ht2 & Hout2 & _) & Hcase).
    destruct (leaving_path_appends _ _ _ _ _ _ _ Hpath Ho) as (Happ & _).
    rewrite Ht2, Ht in Hin. rewrite Ht2, Ht, Hout2, Hout, Happ. simpl.
    apply elem_of_app in Hin as [Hin|Hin].
    { rewrite Forall_forall in Hp. by destruct (Hp _ Hin). }
    destruct o as [[]|ex|code]; [done|..].
    { inversion Hpath; subst. apply list_elem_of_singleton in Hin. done. }
    destruct Hcase as (p & err' & -> & Hout').
    apply elem_of_cons in Hin as [?|Hin]; [done|].
    apply list_elem_of_singleton in Hin as [= -> ->].
    split; [done|]. split; [done|]. split.
    + exists (concat news ++ [ERead i]). rewrite <- app_assoc.
      split; [done|]. split.
      * apply Forall_app. split; [done|]. repeat constructor. by intros [].
      * unfold appends_of. by rewrite omap_app, app_nil_r.
    + rewrite Hout', last_snoc. unfold failure_message. by rewrite Hq.
Qed.


(** C10. In a run that ends with status 0 every index of the range adds
    one to exactly one counter: to the skipped count when the text of its
    row is a completed key, to the processed count otherwise, whether or
    not the append then succeeds.  So the two counters sum to the number of
    indices of the range. *)
Theorem every_index_is_counted_once a e sink df :
  input_csv e = InputTable df →
  (run a e sink).1 = 0 →
  let total_rows := Z.of_nat (length df) in
  let stop := Z.min (default total_rows (end_ a)) total_rows in
  skipped_count (run a e sink).2 + processed_count (run a e sink).2
  = Z.of_nat (length (py_range (start a) stop))
  ∧ Z.of_nat (length (py_range (start a) stop)) = Z.max 0 (stop - start a)
  ∧ (∀ i st st',
       body_of a e df i st = (Normal tt, st') →
       ∃ row, row_at df i = Some row ∧
         if decide (row_context row ∈ translated_ids st)
         then skipped_count st' = skipped_count st + 1
              ∧ processed_count st' = processed_count st
         else skipped_count st' = skipped_count st
              ∧ processed_count st' = processed_count st + 1).
Proof.
  intros Hdf Hcode total_rows stop.
  split; [|split].
  - destruct (run_cases a e sink)
      as [(st0 & Hrun & _)
         |[(df' & st1 & Hl & Hs & Hrun)
          |(df' & fin & i & rest & st1 & o & st2 & _ & _ & _ & _ & _ & Hrun)]];
      rewrite Hrun in *; simpl in *; [done| |done].
    rewrite (loop_runs_table _ _ _ _ _ Hl Hdf) in *.
    apply steps_paths in Hs as (news & _ & _ & Hc). simpl in Hc. exact Hc.
  - unfold py_range. rewrite length_seqZ. lia.
  - intros i st st' Hb.
    apply body_paths in Hb as (new & Hpath & (_ & _ & _ & Hp & _) & Hsum).
    apply normal_path_inv in Hpath
      as (row & Hrow & [[Hin ->]|(Hin & r & _ & [[_ ->]|(ex & _ & ->)])]);
      exists row; (split; [done|]); simpl in Hp.
    + rewrite decide_True by done. lia.
    + rewrite decide_False by done. lia.
    + rewrite decide_False by done. lia.
Qed.

End Runs.

(** ** The claims about uniqueness of keys and about running twice *)

Section Resume.









End Resume.

(** ** The claims at sample inputs *)

Section Samples.

Import Sample Runs.

(** C4 as stated fails: for an answer with line breaks inside and spaces
    around, [translate] returns the cleaned text [a b], which is not the
    text of the answer. *)
Lemma translate_does_not_return_verbatim :
  (translate (answers (response_text ragged) (usage_metadata ragged) 0)
     (lit "key") (lit "x") (lit "English") (lit "Myanmar")
     (initial Absent)).1
  = Normal (lit "a b", 5)
  ∧ lit "a b" ≠ response_text ragged.
Proof. split; [reflexivity|discriminate]. Qed.

(** At row 0 of the three-row table, with no output file yet. *)
Lemma translate_returns_cleaned_text_witness :
  ∃ st', body_of (cli 0 None) three_env three 0 (initial Absent)
         = (Normal tt, st')
    ∧ out st' = appended [lit "a"; lit "1"; lit "A"] (out (initial Absent)).
Proof.
  refine (proj2 (translate_returns_cleaned_text (cli 0 None) three_env three 0
            (source_row (lit "a") (lit "1"))
            {| response_text := lit "A"; usage_metadata := Some 7 |}
            (initial Absent) _ _ _ _)).
  - reflexivity.
  - apply not_elem_of_empty.
  - reflexivity.
  - reflexivity.
Defined.





(** For a service that is out of quota from row 1 of three rows. *)
Lemma quota_exhaustion_ends_run_witness :
  (run (cli 0 None) quota_env Absent).1 = 1
  ∧ last (stdout (run (cli 0 None) quota_env Absent).2)
    = Some MsgQuotaExceeded.
Proof.
  pose proof (quota_exhaustion_ends_run (cli 0 None) quota_env Absent
                quota_prompt (lit "429 RESOURCE_EXHAUSTED")) as H.
  destruct H as (H1 & _ & _ & H2).
  - reflexivity.
  - vm_compute. do 4 apply list_elem_of_further. apply list_elem_of_here.
  - split; [exact H1|exact H2].
Defined.


(** For the three-row table over the sink that holds its first row: one
    index skipped, two processed. *)
Lemma every_index_is_counted_once_witness :
  skipped_count (run (cli 0 None) three_env sink_with_a).2
  + processed_count (run (cli 0 None) three_env sink_with_a).2
  = 3.
Proof.
  pose proof (every_index_is_counted_once (cli 0 None) three_env sink_with_a
                three) as H.
  destruct H as (H & _ & _).
  - reflexivity.
  - by vm_compute.
  - exact H.
Defined.

(** At row 0 when its append is refused. *)
Lemma append_failure_is_not_fatal_witness :
  ∃ st',
    body_of (cli 0 None) failing_append_env three 0 (initial Absent)
    = (Normal tt, st')
    ∧ last (stdout st') = Some (MsgWriteError 0 (lit "Permission denied"))
    ∧ out st' = Absent
    ∧ processed_count st' = 1.
Proof.
  destruct (append_failure_is_not_fatal (cli 0 None) failing_append_env three
              0 [1; 2] (source_row (lit "a") (lit "1"))
              {| response_text := lit "A"; usage_metadata := Some 7 |}
              (lit "Permission denied") (initial Absent))
    as (st' & Hb & _ & Hl & Ho & _ & Hp & _).
  - reflexivity.
  - apply not_elem_of_empty.
  - reflexivity.
  - reflexivity.
  - exists st'. split; [exact Hb|]. split; [exact Hl|]. split; [exact Ho|].
    exact Hp.
Defined.


End Samples.

(** * Further properties of the code *)

(** ** Strings and the normaliser *)

Section MoreText.

Local Open Scope nat_scope.

Lemma lstrip_decompose s :
  ∃ ws, s = ws ++ lstrip s ∧ Forall (fun c => isspace c = true) ws.
Proof.
  induction s as [|c s (ws & Hs & Hws)]; [by exists []|].
  simpl. destruct (isspace c) eqn:Hc.
  - exists (c :: ws). split; [simpl; congruence|by constructor].
  - by exists [].
Qed.

Lemma lstrip_head s c : head (lstrip s) = Some c → isspace c = false.
Proof.
  induction s as [|a s IH]; [done|]. simpl.
  destruct (isspace a) eqn:Ha; [done|]. simpl. congruence.
Qed.

Lemma last_rev (l : str) : last (rev l) = head l.
Proof. destruct l as [|a l]; [done|]. simpl. apply last_snoc. Qed.

Lemma head_rev (l : str) : head (rev l) = last l.
Proof. rewrite <- (rev_involutive l) at 2. by rewrite last_rev. Qed.

Lemma rstrip_decompose s :
  ∃ ws, s = rstrip s ++ ws ∧ Forall (fun c => isspace c = true) ws.
Proof.
  destruct (lstrip_decompose (rev s)) as (ws & Hs & Hws).
  exists (rev ws). split; [|by apply Forall_rev].
  unfold rstrip. rewrite <- rev_app_distr, <- Hs. by rewrite rev_involutive.
Qed.

Lemma rstrip_last s c : last (rstrip s) = Some c → isspace c = false.
Proof. unfold rstrip. rewrite last_rev. apply lstrip_head. Qed.

Lemma strip_decompose s :
  ∃ ws1 ws2,
    s = ws1 ++ strip s ++ ws2
    ∧ Forall (fun c => isspace c = true) ws1
    ∧ Forall (fun c => isspace c = true) ws2.
Proof.
  destruct (lstrip_decompose s) as (ws1 & Hs1 & Hws1).
  destruct (rstrip_decompose (lstrip s)) as (ws2 & Hs2 & Hws2).
  exists ws1, ws2. unfold strip. by rewrite <- Hs2.
Qed.

Lemma split_from_space_prefix ws s :
  Forall (fun c => isspace c = true) ws →
  split_from [] (ws ++ s) = split_from [] s.
Proof.
  induction 1 as [|c ws Hc _ IH]; [done|]. simpl. by rewrite Hc.
Qed.

Lemma split_from_space_suffix cur s ws :
  Forall (fun c => isspace c = true) ws →
  split_from cur (s ++ ws) = split_from cur s.
Proof.
  intros Hws. revert cur. induction s as [|c s IH]; intros cur.
  - simpl. revert cur. induction Hws as [|a ws Ha _ IHws]; intros cur; [done|].
    simpl. rewrite Ha. destruct cur; rewrite IHws; done.
  - simpl. destruct (isspace c); [destruct cur|]; by rewrite IH.
Qed.

Lemma split_strip s : split (strip s) = split s.
Proof.
  destruct (strip_decompose s) as (ws1 & ws2 & Hs & Hws1 & Hws2).
  unfold split. rewrite Hs at 2.
  rewrite split_from_space_prefix by done.
  by rewrite split_from_space_suffix.
Qed.

Lemma lstrip_id t :
  (∀ c, head t = Some c → isspace c = false) → lstrip t = t.
Proof.
  destruct t as [|c t]; [done|]. intros H. simpl.
  by rewrite (H c eq_refl).
Qed.

Lemma rstrip_id t :
  (∀ c, last t = Some c → isspace c = false) → rstrip t = t.
Proof.
  intros H. unfold rstrip. rewrite lstrip_id.
  - apply rev_involutive.
  - intros c. rewrite head_rev. apply H.
Qed.

Lemma clean_text_strip s : clean_text (strip s) = clean_text s.
Proof. by rewrite !clean_text_join_split, split_strip. Qed.

(** X1. The [strip] that [translate] applies before [clean_text] changes
    nothing: the text it returns is [clean_text] of the text of the answer,
    and that text is already stripped. *)
Theorem clean_text_absorbs_strip (s : str) :
  clean_text (strip s) = clean_text s
  ∧ strip (clean_text s) = clean_text s.
Proof.
  split; [apply clean_text_strip|].
  rewrite clean_text_join_split.
  pose proof (split_words s) as Hw. unfold strip.
  {
    rewrite lstrip_id by (intros c; by apply join_head).
    apply rstrip_id. intros c. by apply join_last. }
Qed.

Lemma split_from_nil_inv cur s :
  split_from cur s = [] → cur = [] ∧ Forall (fun c => isspace c = true) s.
Proof.
  revert cur. induction s as [|c s IH]; intros cur; simpl.
  - by destruct cur.
  - destruct (isspace c) eqn:Hc.
    + destruct cur; [|done]. intros [_ ?]%IH. split; [done|by constructor].
    + by intros [? _]%IH.
Qed.

Lemma join_nil_inv ws : Forall is_word ws → join [SP] ws = [] → ws = [].
Proof.
  destruct ws as [|w ws]; [done|]. intros Hw Hj.
  inversion_clear Hw as [|? ? [Hne _] _]. destruct w as [|c w]; [done|].
  by destruct ws.
Qed.

(** X2. [clean_text] returns the empty text exactly for the texts made of
    whitespace only, the empty text among them. *)
Theorem clean_text_empty_iff_blank (s : str) :
  clean_text s = [] ↔ Forall (fun c => isspace c = true) s.
Proof.
  rewrite clean_text_join_split. split.
  - intros Hj. apply join_nil_inv in Hj; [|apply split_words].
    by apply split_from_nil_inv in Hj as [_ ?].
  - intros Hs. unfold split. rewrite <- (app_nil_r s).
    by rewrite split_from_space_prefix.
Qed.

Lemma visible_app s t : visible (s ++ t) = visible s ++ visible t.
Proof. apply List.filter_app. Qed.

Lemma visible_word w :
  Forall (fun c => isspace c = false) w → visible w = w.
Proof.
  induction 1 as [|c w Hc _ IH]; [done|].
  unfold visible in *. simpl. by rewrite Hc, IH.
Qed.

Lemma concat_split_from cur s :
  concat (split_from cur s) = rev cur ++ visible s.
Proof.
  revert cur. induction s as [|c s IH]; intros cur.
  - destruct cur; simpl; by rewrite ?app_nil_r.
  - simpl. unfold visible. simpl. fold (visible s).
    destruct (isspace c); simpl.
    + destruct cur; simpl; by rewrite IH.
    + rewrite IH. simpl. by rewrite <- app_assoc.
Qed.

Lemma visible_join ws :
  Forall is_word ws → visible (join [SP] ws) = concat ws.
Proof.
  induction ws as [|w ws IH]; intros Hws; [done|].
  inversion_clear Hws as [|? ? [_ Hw] Hws'].
  destruct ws as [|w' ws].
  - simpl. rewrite app_nil_r. by apply visible_word.
  - change (join [SP] (w :: w' :: ws)) with (w ++ SP :: join [SP] (w' :: ws)).
    rewrite visible_app, visible_word by done.
    change (visible (SP :: ?l)) with (visible l).
    rewrite IH by done. done.
Qed.

Lemma length_join_split_from cur s :
  length (join [SP] (split_from cur s)) ≤ length cur + length s.
Proof.
  revert cur. induction s as [|c s IH]; intros cur.
  - destruct cur as [|a cur]; [done|].
    cbn [split_from join]. rewrite length_rev. simpl. lia.
  - cbn [split_from]. destruct (isspace c).
    + destruct cur as [|a cur].
      * specialize (IH []). simpl in *. lia.
      * specialize (IH []).
        destruct (split_from [] s) as [|w ws] eqn:Hs.
        -- cbn [join]. rewrite length_rev. simpl. lia.
        -- change (join [SP] (rev (a :: cur) :: w :: ws))
             with (rev (a :: cur) ++ SP :: join [SP] (w :: ws)).
           rewrite length_app, length_rev. simpl in *. lia.
    + specialize (IH (c :: cur)). simpl in *. lia.
Qed.

(** X3. [clean_text] keeps every character that is not whitespace, in
    order, adds none, and never returns a longer text. *)
Theorem clean_text_keeps_visible (s : str) :
  visible (clean_text s) = visible s
  ∧ length (clean_text s) ≤ length s.
Proof.
  rewrite !clean_text_join_split. split.
  - rewrite visible_join by apply split_words.
    unfold split. by rewrite concat_split_from.
  - apply (length_join_split_from [] s).
Qed.

End MoreText.

Section MoreText2.

Lemma no_adjacent_space_tail c s :
  no_adjacent_space (c :: s) = true → no_adjacent_space s = true.
Proof.
  destruct s as [|d s]; [done|]. rewrite no_adjacent_space_cons.
  by intros [_ ?]%andb_true_iff.
Qed.

Lemma join_cons_cons w w' ws :
  join [SP] (w :: w' :: ws) = w ++ SP :: join [SP] (w' :: ws).
Proof. reflexivity. Qed.

(** On a text that is tidy from the current word on, joining the words
    gives the text back. *)
Lemma join_split_from_tidy cur s :
  (∀ c, c ∈ s → isspace c = true → c = SP) →
  no_adjacent_space s = true →
  (∀ c, last s = Some c → isspace c = false) →
  (cur = [] → ∀ c, head s = Some c → isspace c = false) →
  join [SP] (split_from cur s) = rev cur ++ s.
Proof.
  revert cur. induction s as [|c s IH]; intros cur Hsp Hadj Hlast Hhead.
  - destruct cur; simpl; by rewrite ?app_nil_r.
  - cbn [split_from]. destruct (isspace c) eqn:Hc.
    + assert (c = SP) as -> by (apply Hsp; [by left|done]).
      destruct cur as [|a cur].
      { specialize (Hhead eq_refl SP eq_refl). by rewrite Hhead in Hc. }
      destruct s as [|d s].
      { specialize (Hlast SP eq_refl). by rewrite Hlast in Hc. }
      assert (Hd : isspace d = false).
      { rewrite no_adjacent_space_cons, Hc in Hadj. simpl in Hadj.
        apply andb_true_iff in Hadj as [Hd _]. by apply negb_true_iff in Hd. }
      assert (Hrest : join [SP] (split_from [] (d :: s)) = d :: s).
      { apply (IH []).
        - intros x Hx. apply Hsp. by right.
        - by eapply no_adjacent_space_tail.
        - intros x Hx. apply Hlast. by rewrite last_cons_cons.
        - intros _ x [= <-]. done. }
      destruct (split_from [] (d :: s)) as [|w ws]; [done|].
      rewrite join_cons_cons, Hrest. done.
    + rewrite (IH (c :: cur)).
      * simpl. by rewrite <- app_assoc.
      * intros x Hx. apply Hsp. by right.
      * by eapply no_adjacent_space_tail.
      * intros x Hx. apply Hlast. destruct s; [done|]. by rewrite last_cons_cons.
      * done.
Qed.

(** X4. The texts [clean_text] leaves unchanged are exactly the normalised
    ones: single spaces as only whitespace, none at either end. *)
Theorem clean_text_fixes_normalised (s : str) :
  clean_text s = s ↔ normalised s.
Proof.
  rewrite clean_text_join_split. split.
  - intros Hs. pose proof (split_words s) as Hw. rewrite <- Hs.
    split_and!.
    + intros c. by apply join_spaces.
    + by apply join_no_adjacent_space.
    + intros c. by apply join_head.
    + intros c. by apply join_last.
  - intros (Hsp & Hadj & Hhead & Hlast).
    apply (join_split_from_tidy [] s); auto.
Qed.

Lemma startswith_spec p s : startswith p s = true ↔ ∃ b, s = p ++ b.
Proof.
  revert s. induction p as [|a p IH]; intros s.
  - split; [by exists s|done].
  - destruct s as [|c s]; simpl.
    + split; [done|by intros (? & ?)].
    + rewrite andb_true_iff, N.eqb_eq, IH. split.
      * intros [-> (b & ->)]. by exists b.
      * intros (b & [= -> ->]). split; [done|by exists b].
Qed.

Lemma contains_spec p s : contains p s = true ↔ ∃ a b, s = a ++ p ++ b.
Proof.
  induction s as [|c s IH].
  - simpl. rewrite orb_false_r, startswith_spec. split.
    + intros (b & ->). by exists [], b.
    + intros (a & b & H). destruct a; [by exists b|done].
  - cbn [contains]. rewrite orb_true_iff, startswith_spec, IH. split.
    + intros [(b & ->)|(a & b & ->)]; [by exists [], b|by exists (c :: a), b].
    + intros ([|x a] & b & H).
      * left. by exists b.
      * right. injection H as -> ->. by exists a, b.
Qed.

(** X5. [translate] takes an exception for a quota error exactly when its
    message holds [RESOURCE_EXHAUSTED] or [429] somewhere, whatever is
    around it. *)
Theorem quota_error_is_a_substring_test (e : str) :
  is_quota_error e = true
  ↔ ∃ before after,
      e = before ++ lit "RESOURCE_EXHAUSTED" ++ after
      ∨ e = before ++ lit "429" ++ after.
Proof.
  unfold is_quota_error. rewrite orb_true_iff, !contains_spec. split.
  - intros [(a & b & ->)|(a & b & ->)]; exists a, b; auto.
  - intros (a & b & [->| ->]); [left|right]; by exists a, b.
Qed.

End MoreText2.

(** ** The translator and the start of [main] *)

Section MoreTranslate.



End MoreTranslate.

Section Startup.

Import Sample Runs.

(** X7. Without a usable API key the run ends at once with status 1: a key
    that is absent or empty on the command line falls back to the
    environment, and when that one is absent or empty too only the key
    message is printed; the input is not read, the output file is neither
    read nor created, and no call is made. *)
Theorem missing_api_key_stops_the_run a e sink :
  api_key a = None ∨ api_key a = Some [] →
  getenv_GEMINI_API_KEY e = None ∨ getenv_GEMINI_API_KEY e = Some [] →
  (run a e sink).1 = 1
  ∧ stdout (run a e sink).2 = [MsgNoApiKey]
  ∧ out (run a e sink).2 = sink
  ∧ trace (run a e sink).2 = [].
Proof.
  intros Ha He. unfold run, main.
  assert (falsy (py_or (api_key a) (getenv_GEMINI_API_KEY e)) = true) as ->.
  { by destruct Ha as [-> | ->], He as [-> | ->]. }
  done.
Qed.

(** With no key on the command line, none in the environment, and no output
    file. *)
Lemma missing_api_key_stops_the_run_witness :
  out (run {| input_file := lit "in.csv"; output_file := lit "out.csv";
              api_key := Some []; start := 0; end_ := None;
              source := lit "English"; target := lit "Myanmar" |}
           three_env Absent).2 = Absent.
Proof.
  refine (proj1 (proj2 (proj2
    (missing_api_key_stops_the_run
       {| input_file := lit "in.csv"; output_file := lit "out.csv";
          api_key := Some []; start := 0; end_ := None;
          source := lit "English"; target := lit "Myanmar" |}
       three_env Absent _ _)))).
  - right. reflexivity.
  - left. reflexivity.
Defined.

(** X8. With a key, an input file that is missing or that cannot be read
    ends the run with status 1 after its message alone; the output file is
    left as it was, a missing one is not created, and no call is made. *)
Theorem bad_input_stops_the_run a e sink :
  falsy (resolved_key a e) = false →
  (∀ df, input_csv e ≠ InputTable df) →
  (run a e sink).1 = 1
  ∧ out (run a e sink).2 = sink
  ∧ trace (run a e sink).2 = []
  ∧ ((input_csv e = InputMissing
      ∧ stdout (run a e sink).2 = [MsgInputMissing (input_file a)])
     ∨ (∃ ex, input_csv e = InputUnreadable ex
        ∧ stdout (run a e sink).2 = [MsgInputError ex])).
Proof.
  intros Hkey Hin. unfold run, main. fold (resolved_key a e). rewrite Hkey.
  destruct (input_csv e) as [|ex|df] eqn:Hcsv.
  - split_and!; try done. by left.
  - split_and!; try done. right. by exists ex.
  - by destruct (Hin df).
Qed.

(** With a key and no input file, and no output file either. *)
Lemma bad_input_stops_the_run_witness :
  out (run (cli 0 None)
         {| getenv_GEMINI_API_KEY := None; input_csv := InputMissing;
            remote := answers (lit "A") None; create_error := None;
            append_error := no_failure |} Absent).2 = Absent.
Proof.
  refine (proj1 (proj2
    (bad_input_stops_the_run (cli 0 None)
       {| getenv_GEMINI_API_KEY := None; input_csv := InputMissing;
          remote := answers (lit "A") None; create_error := None;
          append_error := no_failure |} Absent _ _))).
  - reflexivity.
  - intros df. discriminate.
Defined.

End Startup.

(** ** What a run prints and how its counters relate to its effects *)

Section Account.

Context (a : args) (e : env) (df : list SourceRow).

Lemma write_errors_app l1 l2 :
  write_errors (l1 ++ l2) = (write_errors l1 + write_errors l2)%nat.
Proof. unfold write_errors. by rewrite List.filter_app, length_app. Qed.

Lemma usage_warning_loop r :
  Forall loop_message (usage_warning r) ∧ write_errors (usage_warning r) = 0%nat.
Proof. unfold usage_warning. destruct (usage_metadata r); by repeat constructor. Qed.

(** One pass of the loop body: its path, its effects, what it prints, and
    the balance between rows processed, records appended and appends
    refused. *)
Lemma body_account i st o st' :
  body_of a e df i st = (o, st') →
  ∃ new msgs,
    body_path a e df (translated_ids st) i o new
    ∧ extends st new st'
    ∧ stdout st' = stdout st ++ msgs
    ∧ Forall loop_message msgs
    ∧ length (returned_calls new)
      = (length (appends_of new) + write_errors msgs)%nat.
Proof.
  unfold body_of. rewrite loop_body_eq. unfold body_result.
  destruct (row_at df i) as [row|] eqn:Hrow.
  2: { intros [= <- <-]. exists [ERead i], []. split; [by constructor|].
       unfold extends. simpl. rewrite app_nil_r. repeat split; try lia.
       constructor. }
  destruct (decide _) as [Hin|Hin].
  { intros [= <- <-]. exists [ERead i], []. split; [by econstructor|].
    unfold extends. simpl. rewrite app_nil_r. repeat split; try lia.
    constructor. }
  simpl. destruct (remote e i _ _) as [r|err] eqn:Hr.
  - destruct (usage_warning_loop r) as [Hwl Hwe].
    destruct (append_error e i) as [ex|] eqn:Hw; intros [= <- <-].
    + eexists _, (usage_warning r ++ [MsgWriteError i ex]).
      split; [by eapply path_write_failed|].
      unfold extends, sum_Z. simpl. rewrite <- app_assoc.
      rewrite write_errors_app, Hwe.
      repeat split; try lia.
      apply Forall_app. split; [done|]. by repeat constructor.
    + eexists _, (usage_warning r ++ [MsgRowWritten _ _ _ _ _ _]).
      split; [by eapply path_written|].
      unfold extends, sum_Z. simpl. rewrite <- !app_assoc.
      rewrite write_errors_app, Hwe.
      repeat split; try lia.
      apply Forall_app. split; [done|]. by repeat constructor.
  - intros [= <- <-]. eexists _, [failure_message err].
    split; [by eapply path_call_failed|].
    unfold extends. simpl. repeat split; try lia.
    + repeat constructor. unfold failure_message.
      by destruct (is_quota_error err).
    + unfold failure_message. by destruct (is_quota_error err).
Qed.

Lemma steps_account l st st' :
  steps (body_of a e df) l st st' →
  ∃ news msgs,
    Forall2 (fun i new => body_path a e df (translated_ids st) i (Normal tt) new)
      l news
    ∧ extends st (concat news) st'
    ∧ stdout st' = stdout st ++ msgs
    ∧ Forall loop_message msgs
    ∧ length (returned_calls (concat news))
      = (length (appends_of (concat news)) + write_errors msgs)%nat
    ∧ skipped_count st' + processed_count st'
      = skipped_count st + processed_count st + Z.of_nat (length l).
Proof.
  induction 1 as [st|i rest st st1 st2 Hb Hs
                    (news & msgs2 & Hp2 & He2 & Ho2 & Hm2 & Hb2 & Hc2)].
  - exists [], []. split; [constructor|]. split; [apply extends_refl|].
    simpl. rewrite app_nil_r. repeat split; try lia. constructor.
  - destruct (body_account _ _ _ _ Hb) as (new & msgs1 & Hp1 & He1 & Ho1 & Hm1 & Hb1).
    assert (Hids : translated_ids st1 = translated_ids st) by apply He1.
    rewrite Hids in Hp2.
    assert (Hc1 : skipped_count st1 + processed_count st1
                  = skipped_count st + processed_count st + 1).
    { by destruct (body_paths _ _ _ _ _ _ _ Hb) as (? & _ & _ & ?). }
    exists (new :: news), (msgs1 ++ msgs2).
    split; [by constructor|]. split; [by eapply extends_trans|].
    rewrite Ho2, Ho1, <- app_assoc. split; [done|].
    split; [by apply Forall_app|].
    cbn [concat]. unfold returned_calls, appends_of in *.
    rewrite !omap_app, !length_app, write_errors_app.
    split; [lia|]. rewrite length_cons. lia.
Qed.

End Account.

Section RunAccount.

(** A run that stops before the loop prints one of the four start-up
    messages, after the line of the loaded table for the last of them. *)
Lemma early_stop_stdout a e sink :
  (∀ df, ¬ loop_runs a e sink df) →
  ∃ st, main a e (initial sink) = (SysExit 1, st) ∧
    (stdout st = [MsgNoApiKey]
     ∨ stdout st = [MsgInputMissing (input_file a)]
     ∨ (∃ ex, stdout st = [MsgInputError ex])
     ∨ (∃ (df : list SourceRow) ex,
          stdout st = [MsgLoaded (Z.of_nat (length df)) (input_file a);
                       MsgCreateError ex])).
Proof.
  intros Hno. unfold main. fold (resolved_key a e).
  destruct (falsy (resolved_key a e)) eqn:Hkey.
  { eexists. split; [reflexivity|by left]. }
  destruct (input_csv e) as [|ex|df] eqn:Hin.
  { eexists. split; [reflexivity|by right; left]. }
  { eexists. split; [reflexivity|]. right. right. left. by exists ex. }
  unfold bind at 1. simpl. unfold bind at 1. rewrite bootstrap_eq. simpl.
  destruct sink as [| |]; simpl.
  - destruct (create_error e) as [ex|] eqn:Hc.
    + eexists. split; [reflexivity|]. right. right. right. by exists df, ex.
    + destruct (Hno df). by repeat split.
  - destruct (Hno df). by repeat split.
  - destruct (Hno df). by repeat split.
Qed.

(** The three kinds of run, with what each printed. *)
Lemma run_account a e sink :
  ((∀ df, ¬ loop_runs a e sink df)
   ∧ (run a e sink).1 = 1
   ∧ out (run a e sink).2 = sink
   ∧ trace (run a e sink).2 = []
   ∧ processed_count (run a e sink).2 = 0)
  ∨ (∃ df news msgs st1,
       loop_runs a e sink df
       ∧ Forall2 (fun i new =>
            body_path a e df (completed_keys sink) i (Normal tt) new)
           (indices_of a df) news
       ∧ extends (started a df sink) (concat news) st1
       ∧ stdout st1 = prelude a df sink ++ msgs
       ∧ Forall loop_message msgs
       ∧ length (returned_calls (concat news))
         = (length (appends_of (concat news)) + write_errors msgs)%nat
       ∧ run a e sink = (0, summarised a df st1))
  ∨ (∃ df fin i rest news new msgs o st2,
       loop_runs a e sink df
       ∧ indices_of a df = fin ++ i :: rest
       ∧ Forall2 (fun i new =>
            body_path a e df (completed_keys sink) i (Normal tt) new)
           fin news
       ∧ body_path a e df (completed_keys sink) i o new
       ∧ o ≠ Normal tt
       ∧ extends (started a df sink) (concat news ++ new) st2
       ∧ stdout st2 = prelude a df sink ++ msgs
       ∧ Forall loop_message msgs
       ∧ length (returned_calls (concat news ++ new))
         = (length (appends_of (concat news ++ new)) + write_errors msgs)%nat
       ∧ run a e sink = (1, st2)).
Proof.
  destruct (run_cases a e sink)
    as [(st0 & Hrun & Hout & Ht & Hp & _ & _ & Hno)
       |[(df & st1 & Hl & Hs & Hrun)
        |(df & fin & i & rest & st1 & o & st2 & Hl & Hi & Hs & Hb & Ho & Hrun)]].
  - left. rewrite Hrun. by split_and!.
  - right. left.
    apply steps_account in Hs as (news & msgs & Hp & He & Hout & Hm & Hbal & _).
    exists df, news, msgs, st1. by split_and!.
  - right. right.
    apply steps_account in Hs as (news & msgs1 & Hp & He & Hout & Hm & Hbal & _).
    apply body_account in Hb as (new & msgs2 & Hp2 & He2 & Hout2 & Hm2 & Hbal2).
    assert (Hids : translated_ids st1 = completed_keys sink) by apply He.
    rewrite Hids in Hp2.
    exists df, fin, i, rest, news, new, (msgs1 ++ msgs2), o, st2.
    split_and!; try done.
    + by eapply extends_trans.
    + rewrite Hout2, Hout. by rewrite <- app_assoc.
    + by apply Forall_app.
    + unfold returned_calls, appends_of in *.
      rewrite !omap_app, !length_app, write_errors_app. lia.
Qed.

End RunAccount.

(** ** The output file and the calls of a run *)

Section FileAndCalls.

Import Sample Runs.








End FileAndCalls.

(** ** What a run prints *)

Section Printed.

Import Sample Runs.

Lemma loop_message_plain m : loop_message m → ¬ is_summary m.
Proof. destruct m; simpl; tauto. Qed.

Lemma prelude_plain a df sink :
  Forall (fun m => ¬ is_summary m) (prelude a df sink)
  ∧ write_errors (prelude a df sink) = 0%nat.
Proof.
  assert (Hb : ¬ is_summary (bootstrap_message a sink)
               ∧ is_write_error (bootstrap_message a sink) = false).
  { unfold bootstrap_message.
    destruct sink as [|ex tail|header rows]; [| |destruct (context_cells _)];
      simpl; tauto. }
  destruct Hb as (? & Hw). unfold prelude, write_errors. simpl.
  rewrite Hw. split; [|done]. repeat constructor; simpl; tauto.
Qed.

(** The standard output of a run, by kind of run. *)
Lemma run_stdout a e sink :
  ((run a e sink).1 = 1
   ∧ trace (run a e sink).2 = []
   ∧ processed_count (run a e sink).2 = 0
   ∧ Forall (fun m => ¬ is_summary m) (stdout (run a e sink).2)
   ∧ write_errors (stdout (run a e sink).2) = 0%nat)
  ∨ (∃ df msgs,
       input_csv e = InputTable df
       ∧ Forall loop_message msgs
       ∧ processed_count (run a e sink).2
         = Z.of_nat (length (appends_of (trace (run a e sink).2))
                     + write_errors msgs)
       ∧ (((run a e sink).1 = 0
           ∧ stdout (run a e sink).2
             = prelude a df sink ++ msgs
               ++ [MsgSummary (Z.of_nat (length df))
                     (processed_count (run a e sink).2)
                     (skipped_count (run a e sink).2) (output_file a)])
          ∨ ((run a e sink).1 = 1
             ∧ stdout (run a e sink).2 = prelude a df sink ++ msgs))).
Proof.
  destruct (run_account a e sink)
    as [(Hno & Hcode & _ & Ht & Hp)
       |[(df & news & msgs & st1 & Hl & _ & (Ht & _ & _ & Hp & _) & Hout & Hm
          & Hbal & Hrun)
        |(df & fin & i & rest & news & new & msgs & o & st2 & Hl & _ & _ & _ & _
          & (Ht & _ & _ & Hp & _) & Hout & Hm & Hbal & Hrun)]].
  - left. split_and!; try done.
    all: destruct (early_stop_stdout a e sink Hno) as (st & Hmain & Hst);
      unfold run; rewrite Hmain; simpl;
      destruct Hst as [-> |[-> |[(ex & ->)|(df & ex & ->)]]];
      try reflexivity; repeat constructor; simpl; tauto.
  - right. exists df, msgs. split; [apply Hl|]. split; [done|].
    rewrite Hrun. simpl in Ht, Hp. simpl.
    split; [rewrite Hp, Ht, Hbal; lia|]. left. split; [done|].
    rewrite Hout. by rewrite <- app_assoc.
  - right. exists df, msgs. split; [apply Hl|]. split; [done|].
    rewrite Hrun. simpl in Ht, Hp. simpl.
    split; [rewrite Hp, Ht, Hbal; lia|]. by right.
Qed.


(** X12. A run ends with status 0 or 1.  With status 0 the summary is the
    last thing printed and reports the number of rows of the source and
    the final processed and skipped counts; with status 1 no summary is
    printed at all. *)
Theorem summary_is_printed_on_success_only a e sink :
  ((run a e sink).1 = 0 ∨ (run a e sink).1 = 1)
  ∧ ((run a e sink).1 = 0 →
     ∃ df, input_csv e = InputTable df
       ∧ last (stdout (run a e sink).2)
         = Some (MsgSummary (Z.of_nat (length df))
                   (processed_count (run a e sink).2)
                   (skipped_count (run a e sink).2) (output_file a)))
  ∧ ((run a e sink).1 = 1 →
     Forall (fun m => ¬ is_summary m) (stdout (run a e sink).2)).
Proof.
  destruct (run_stdout a e sink)
    as [(Hc & _ & _ & Hall & _)
       |(df & msgs & Hdf & Hm & _ & [[Hc Hout]|[Hc Hout]])].
  - split; [by right|]. split; [by rewrite Hc|]. by intros _.
  - split; [by left|]. split; [|by rewrite Hc]. intros _.
    exists df. split; [done|]. rewrite Hout, !app_assoc. apply last_snoc.
  - split; [by right|]. split; [by rewrite Hc|]. intros _.
    rewrite Hout. apply Forall_app. split.
    + by destruct (prelude_plain a df sink) as [Hp _].
    + eapply Forall_impl; [exact Hm|]. apply loop_message_plain.
Qed.

(** A call that raised is the last effect of its run. *)
Lemma failed_call_is_last a e sink prompt err :
  ECall prompt (Raises err) ∈ trace (run a e sink).2 →
  (run a e sink).1 = 1
  ∧ (∃ before,
       trace (run a e sink).2 = before ++ [ECall prompt (Raises err)]
       ∧ Forall (fun ev => ¬ failed_call ev) before)
  ∧ last (stdout (run a e sink).2) = Some (failure_message err).
Proof.
  intros Hin.
  destruct (run_cases a e sink)
    as [(st0 & Hrun & _ & Ht & _)
       |[(df & st1 & _ & Hs & Hrun)
        |(df & fin & i & rest & st1 & o & st2 & _ & _ & Hs & Hb & Ho & Hrun)]];
    rewrite Hrun in *; simpl in *.
  - rewrite Ht in Hin. by apply elem_of_nil in Hin.
  - apply steps_paths in Hs as (news & Hp & (Ht & _) & _).
    apply paths_calls_returned in Hp. rewrite Ht in Hin. simpl in Hin.
    rewrite Forall_forall in Hp. by destruct (Hp _ Hin).
  - apply steps_paths in Hs as (news & Hp & (Ht & _) & _).
    apply paths_calls_returned in Hp. simpl in Ht.
    apply body_paths in Hb as (new & Hpath & (Ht2 & _) & Hcase).
    rewrite Ht2, Ht in Hin. rewrite Ht2, Ht.
    apply elem_of_app in Hin as [Hin|Hin].
    { rewrite Forall_forall in Hp. by destruct (Hp _ Hin). }
    destruct o as [[]|ex|code]; [done|..].
    { inversion Hpath; subst. apply list_elem_of_singleton in Hin. done. }
    destruct Hcase as (p & err' & -> & Hout').
    apply elem_of_cons in Hin as [?|Hin]; [done|].
    apply list_elem_of_singleton in Hin as [= -> ->].
    split; [done|]. split.
    + exists (concat news ++ [ERead i]). rewrite <- app_assoc.
      split; [done|].
      apply Forall_app. split; [done|]. repeat constructor. by intros [].
    + by rewrite Hout', last_snoc.
Qed.

(** X13. A remote error that is not a quota error ends the run just the
    same: the status is 1, the failing call is the last effect of the run,
    and the last message printed is the translation error with the text of
    the exception. *)
Theorem other_remote_error_ends_run a e sink prompt err :
  is_quota_error err = false →
  ECall prompt (Raises err) ∈ trace (run a e sink).2 →
  (run a e sink).1 = 1
  ∧ (∃ before,
       trace (run a e sink).2 = before ++ [ECall prompt (Raises err)]
       ∧ Forall (fun ev => ¬ failed_call ev) before)
  ∧ last (stdout (run a e sink).2) = Some (MsgTranslationError err).
Proof.
  intros Hq Hin.
  destruct (failed_call_is_last _ _ _ _ _ Hin) as (Hc & Hbefore & Hlast).
  split; [done|]. split; [done|].
  rewrite Hlast. unfold failure_message. by rewrite Hq.
Qed.

End Printed.

(** ** The bounds of the range *)

Section Bounds.

Import Sample Runs.

Lemma row_at_is_Some df i :
  is_Some (row_at df i)
  ↔ - Z.of_nat (length df) ≤ i < Z.of_nat (length df).
Proof.
  unfold row_at. destruct (Z.ltb_spec i 0).
  - destruct (Z.leb_spec 0 (Z.of_nat (length df) + i));
      destruct (Z.ltb_spec (Z.of_nat (length df) + i) (Z.of_nat (length df)));
      simpl; rewrite ?lookup_lt_is_Some; try lia;
      split; try lia; by intros [? ?].
  - destruct (Z.leb_spec 0 i);
      destruct (Z.ltb_spec i (Z.of_nat (length df)));
      simpl; rewrite ?lookup_lt_is_Some; try lia;
      split; try lia; by intros [? ?].
Qed.




(** X15. When [start] is below minus the number of rows and the range is
    not empty, a run that reaches the loop stops on its first index with
    an index error: status 1, the row was looked up and nothing else
    happened: no call, no append, no count, no summary. *)
Theorem start_below_table_stops_at_once a e sink df :
  loop_runs a e sink df →
  start a < - Z.of_nat (length df) →
  start a < Z.min (default (Z.of_nat (length df)) (end_ a))
              (Z.of_nat (length df)) →
  (run a e sink).1 = 1
  ∧ trace (run a e sink).2 = [ERead (start a)]
  ∧ out (run a e sink).2 = opened sink
  ∧ processed_count (run a e sink).2 = 0
  ∧ skipped_count (run a e sink).2 = 0
  ∧ stdout (run a e sink).2 = prelude a df sink.
Proof.
  intros Hruns Hlow Hstop.
  assert (main a e (initial sink)
          = (Raise IndexError, read_only (start a) (started a df sink))) as Hm.
  { rewrite (main_loop_runs _ _ _ _ Hruns), batch_eq.
    unfold indices_of, stop_of, py_range. rewrite seqZ_cons by lia.
    cbn [for_each]. unfold bind at 1. rewrite loop_body_eq.
    unfold body_result.
    assert (row_at df (start a) = None) as ->.
    { apply eq_None_not_Some. rewrite row_at_is_Some. lia. }
    reflexivity. }
  unfold run. rewrite Hm. split_and!; reflexivity.
Qed.

(** For the range from -5 over three rows. *)
Lemma start_below_table_stops_at_once_witness :
  trace (run (cli (-5) None) three_env Absent).2 = [ERead (-5)].
Proof.
  refine (proj1 (proj2 (start_below_table_stops_at_once (cli (-5) None)
                          three_env Absent three _ _ _))).
  - by repeat split.
  - by vm_compute.
  - by vm_compute.
Defined.

(** X16. A negative index counts from the end of the table, so with a
    negative [start] and no [end] the loop meets the same row twice: once
    at the negative index and once at its position. *)
Theorem negative_start_meets_rows_twice a df i :
  - Z.of_nat (length df) ≤ i < 0 →
  start a ≤ i →
  end_ a = None →
  row_at df i = row_at df (Z.of_nat (length df) + i)
  ∧ is_Some (row_at df i)
  ∧ i ∈ indices_of a df
  ∧ Z.of_nat (length df) + i ∈ indices_of a df
  ∧ i ≠ Z.of_nat (length df) + i.
Proof.
  intros Hi Hs He. split_and!.
  - unfold row_at.
    destruct (Z.ltb_spec i 0); [|lia].
    destruct (Z.ltb_spec (Z.of_nat (length df) + i) 0); [lia|done].
  - apply row_at_is_Some. lia.
  - unfold indices_of, stop_of, py_range. rewrite He, elem_of_seqZ. simpl. lia.
  - unfold indices_of, stop_of, py_range. rewrite He, elem_of_seqZ. simpl. lia.
  - lia.
Qed.

(** For the index -1 over three rows, from [start] -2. *)
Lemma negative_start_meets_rows_twice_witness :
  row_at three (-1) = row_at three 2
  ∧ -1 ∈ indices_of (cli (-2) None) three
  ∧ 2 ∈ indices_of (cli (-2) None) three.
Proof.
  destruct (negative_start_meets_rows_twice (cli (-2) None) three (-1))
    as (H1 & _ & H2 & H3 & _).
  - by vm_compute.
  - by vm_compute.
  - reflexivity.
  - split; [exact H1|]. split; [exact H2|exact H3].
Defined.

(** X17. When the range is empty, because [start] is not below the smaller
    of [end] and the number of rows, a run that reaches the loop does
    nothing in it: status 0, no row read, no call, no append, both counts
    0, and the summary right after the opening lines. *)
Theorem empty_range_does_nothing a e sink df :
  loop_runs a e sink df →
  Z.min (default (Z.of_nat (length df)) (end_ a)) (Z.of_nat (length df))
  ≤ start a →
  (run a e sink).1 = 0
  ∧ trace (run a e sink).2 = []
  ∧ out (run a e sink).2 = opened sink
  ∧ processed_count (run a e sink).2 = 0
  ∧ skipped_count (run a e sink).2 = 0
  ∧ stdout (run a e sink).2
    = prelude a df sink
      ++ [MsgSummary (Z.of_nat (length df)) 0 0 (output_file a)].
Proof.
  intros Hruns Hstop.
  assert (main a e (initial sink)
          = (Normal tt, summarised a df (started a df sink))) as Hm.
  { rewrite (main_loop_runs _ _ _ _ Hruns), batch_eq.
    unfold indices_of, stop_of, py_range. rewrite seqZ_nil by lia.
    reflexivity. }
  unfold run. rewrite Hm. split_and!; reflexivity.
Qed.

(** For the range from 7 over three rows. *)
Lemma empty_range_does_nothing_witness :
  trace (run (cli 7 None) three_env Absent).2 = []
  ∧ out (run (cli 7 None) three_env Absent).2 = Table out_header [].
Proof.
  destruct (empty_range_does_nothing (cli 7 None) three_env Absent three)
    as (_ & H1 & H2 & _).
  - by repeat split.
  - by vm_compute.
  - split; [exact H1|exact H2].
Defined.

End Bounds.

(** ** Runs that complete, and resuming *)

Section Completion.

Import Sample Runs.












(** X21. The prompt holds the text as it is, between the opening words and
    a closing double quote, and the two language names; prompts for
    different texts, under the same languages, are different. *)
Theorem prompt_embeds_the_text text1 text2 source target :
  (prompt_of text1 source target = prompt_of text2 source target →
   text1 = text2)
  ∧ contains text1 (prompt_of text1 source target) = true
  ∧ contains source (prompt_of text1 source target) = true
  ∧ contains target (prompt_of text1 source target) = true
  ∧ last (prompt_of text1 source target) = Some QUOTE.
Proof.
  unfold prompt_of. split_and!.
  - intros H. do 5 apply app_inv_head in H. injection H as H.
    by apply app_inv_tail in H.
  - apply contains_spec.
    exists (lit "Translate the following " ++ source ++ lit " text to "
            ++ target ++ lit ":" ++ [LF; LF; QUOTE]), [QUOTE].
    by rewrite <- !app_assoc.
  - apply contains_spec.
    by exists (lit "Translate the following "),
              (lit " text to " ++ target ++ lit ":" ++ [LF; LF; QUOTE]
               ++ text1 ++ [QUOTE]).
  - apply contains_spec.
    exists (lit "Translate the following " ++ source ++ lit " text to "),
           (lit ":" ++ [LF; LF; QUOTE] ++ text1 ++ [QUOTE]).
    by rewrite <- !app_assoc.
  - rewrite !app_assoc. apply last_snoc.
Qed.

(** For a service that is offline and three rows. *)
Lemma other_remote_error_ends_run_witness :
  (run (cli 0 None) MoreRuns.offline_env Absent).1 = 1
  ∧ last (stdout (run (cli 0 None) MoreRuns.offline_env Absent).2)
    = Some (MsgTranslationError (lit "connection reset")).
Proof.
  destruct (other_remote_error_ends_run (cli 0 None) MoreRuns.offline_env
              Absent (prompt_of (lit "a") (lit "English") (lit "Myanmar"))
              (lit "connection reset"))
    as (H1 & _ & H2).
  - reflexivity.
  - vm_compute. apply list_elem_of_further. apply list_elem_of_here.
  - split; [exact H1|exact H2].
Defined.

End Completion.
